(** * pyprob/distributions.py: Empirical, Normal, TruncatedNormal, Uniform

    A shallow embedding of the distribution objects of
    [pyprob/distributions.py] and the proofs of their documented properties.

    Numbers.  The source computes on one-element tensors of IEEE floats.
    They are modelled as extended reals [ext]: a finite value is an exact
    real number, and the three special values +inf, -inf and NaN follow the
    IEEE rules the tensor runtime implements (log 0 = -inf, inf - inf = NaN,
    comparisons with NaN are false, ...).  Rounding and overflow of finite
    values are not modelled, and zero carries no sign (a division by zero
    treats it as +0).  The weights of [Empirical] are exact reals. *)

From Stdlib Require Import Reals Lra Lia ZArith List Bool String.
From Stdlib Require Import Permutation Sorted.
Import ListNotations.

Open Scope R_scope.

(** ** Extended reals: the values of a one-element tensor *)

Inductive ext : Type :=
| Fin (r : R)
| PInf
| NInf
| NaN.

(** Modelled from the spec: [util.has_nan_or_inf], the test for a result
    that is not finite (NaN or an infinity); the file that defines it is
    not part of the sources. *)
Definition has_nan_or_inf (x : ext) : bool :=
  match x with
  | Fin _ => false
  | _ => true
  end.

Definition eopp (x : ext) : ext :=
  match x with
  | Fin a => Fin (- a)
  | PInf => NInf
  | NInf => PInf
  | NaN => NaN
  end.

Definition eadd (x y : ext) : ext :=
  match x, y with
  | NaN, _ | _, NaN => NaN
  | Fin a, Fin b => Fin (a + b)
  | PInf, NInf | NInf, PInf => NaN
  | PInf, _ | _, PInf => PInf
  | NInf, _ | _, NInf => NInf
  end.

Definition esub (x y : ext) : ext := eadd x (eopp y).

(** The infinity that has the sign of the finite factor [a]; NaN at zero. *)
Definition inf_times (positive : bool) (a : R) : ext :=
  if Req_dec_T a 0 then NaN
  else if Rlt_dec 0 a then (if positive then PInf else NInf)
       else (if positive then NInf else PInf).

Definition emul (x y : ext) : ext :=
  match x, y with
  | NaN, _ | _, NaN => NaN
  | Fin a, Fin b => Fin (a * b)
  | Fin a, PInf | PInf, Fin a => inf_times true a
  | Fin a, NInf | NInf, Fin a => inf_times false a
  | PInf, PInf | NInf, NInf => PInf
  | PInf, NInf | NInf, PInf => NInf
  end.

Definition ediv (x y : ext) : ext :=
  match x, y with
  | NaN, _ | _, NaN => NaN
  | Fin a, Fin b =>
      if Req_dec_T b 0 then
        (if Req_dec_T a 0 then NaN else if Rlt_dec 0 a then PInf else NInf)
      else Fin (a / b)
  | Fin _, (PInf | NInf) => Fin 0
  | PInf, Fin b => if Rle_dec 0 b then PInf else NInf
  | NInf, Fin b => if Rle_dec 0 b then NInf else PInf
  | (PInf | NInf), (PInf | NInf) => NaN
  end.

(** [Tensor.reciprocal()] *)
Definition reciprocal (x : ext) : ext := ediv (Fin 1) x.

(** [Tensor.pow(2)] *)
Definition pow2 (x : ext) : ext := emul x x.

(** [torch.log] *)
Definition elog (x : ext) : ext :=
  match x with
  | Fin a => if Rlt_dec 0 a then Fin (ln a)
             else if Req_dec_T a 0 then NInf else NaN
  | PInf => PInf
  | NInf | NaN => NaN
  end.

(** [torch.exp] *)
Definition eexp (x : ext) : ext :=
  match x with
  | Fin a => Fin (exp a)
  | PInf => PInf
  | NInf => Fin 0
  | NaN => NaN
  end.

(** [Tensor.ge], [Tensor.le], [Tensor.lt]: false as soon as one side is NaN. *)
Definition ege (x y : ext) : bool :=
  match x, y with
  | NaN, _ | _, NaN => false
  | Fin a, Fin b => if Rle_dec b a then true else false
  | PInf, _ => true
  | _, NInf => true
  | _, _ => false
  end.

Definition ele (x y : ext) : bool := ege y x.

Definition elt (x y : ext) : bool :=
  match x, y with
  | NaN, _ | _, NaN => false
  | Fin a, Fin b => if Rlt_dec a b then true else false
  | NInf, (Fin _ | PInf) => true
  | Fin _, PInf => true
  | _, _ => false
  end.

(** [mask.type_as(t)]: a comparison mask as a number, 1 for true, 0 for false. *)
Definition type_as (b : bool) : ext := if b then Fin 1 else Fin 0.

(** [Tensor.sqrt()] *)
Definition esqrt (x : ext) : ext :=
  match x with
  | Fin a => if Rle_dec 0 a then Fin (sqrt a) else NaN
  | PInf => PInf
  | NInf | NaN => NaN
  end.

(** ** The error function

    [torch.erf] and [torch.erfinv] are primitives of the tensor runtime.
    On finite arguments they are the real error function and its inverse
    (their saturation to exactly 1 or -1 at large finite arguments is an
    effect of rounding and is not modelled),
    taken here as a parameter with their mathematical contract: [erf] is an
    odd-centred, strictly increasing bijection from the reals onto (-1, 1),
    and [erfinv] is its inverse. *)

Class ErrorFunction : Type := {
  erf : R -> R;
  erfinv : R -> R;
  erf_0 : erf 0 = 0;
  erf_increasing : forall x y, x < y -> erf x < erf y;
  erf_bounds : forall x, -1 < erf x < 1;
  erfinv_erf : forall x, erfinv (erf x) = x;
  erf_erfinv : forall y, -1 < y < 1 -> erf (erfinv y) = y
}.

(** [torch.erf]: the limits at the infinities are -1 and 1. *)
Definition torch_erf `{ErrorFunction} (x : ext) : ext :=
  match x with
  | Fin a => Fin (erf a)
  | PInf => Fin 1
  | NInf => Fin (-1)
  | NaN => NaN
  end.

(** [torch.erfinv]: infinite at the end points, NaN outside [-1, 1]. *)
Definition torch_erfinv `{ErrorFunction} (y : ext) : ext :=
  match y with
  | Fin a =>
      if Rlt_dec (-1) a then
        if Rlt_dec a 1 then Fin (erfinv a)
        else if Req_dec_T a 1 then PInf else NaN
      else if Req_dec_T a (-1) then NInf else NaN
  | _ => NaN
  end.

(** ** Normal *)

Module Normal.

(** [_torch_dist] is [torch.distributions.Normal(_mean, _stddev)]: it
    holds the same two parameters. *)
Record t : Type := mk {
  _mean : ext;
  _stddev : ext
}.

Definition __init__ (mean stddev : ext) : t :=
  {| _mean := mean; _stddev := stddev |}.

Definition cdf `{ErrorFunction} (self : t) (value : ext) : ext :=
  emul (Fin 0.5)
    (eadd (Fin 1)
       (torch_erf
          (ediv (emul (esub value (_mean self)) (reciprocal (_stddev self)))
             (Fin (sqrt 2))))).

Definition icdf `{ErrorFunction} (self : t) (value : ext) : ext :=
  eadd (_mean self)
    (emul
       (emul (_stddev self)
          (torch_erfinv (esub (emul (Fin 2) value) (Fin 1))))
       (Fin (sqrt 2))).

(** [Distribution.log_prob] delegates to the runtime's Normal, whose
    log-density is
    [-((value - loc) ** 2) / (2 * scale ** 2) - log(scale) - log(sqrt(2 * pi))]. *)
Definition log_prob (self : t) (value : ext) : ext :=
  let var := pow2 (_stddev self) in
  esub
    (esub
       (ediv (eopp (pow2 (esub value (_mean self)))) (emul (Fin 2) var))
       (elog (_stddev self)))
    (Fin (ln (sqrt (2 * PI)))).

(** [Distribution.prob] *)
Definition prob (self : t) (value : ext) : ext :=
  eexp (log_prob self value).

End Normal.

(** ** The random number generator

    [torch.zeros(shape).uniform_()] reads the next number of the generator's
    stream and advances the generator. *)

Record RNG : Type := mkRNG {
  draws : nat -> ext;
  pos : nat
}.

Definition uniform_ (g : RNG) : ext * RNG :=
  (draws g (pos g), {| draws := draws g; pos := S (pos g) |}).

(** ** TruncatedNormal *)

Module TruncatedNormal.

Record t : Type := mk {
  _mean_non_truncated : ext;
  _stddev_non_truncated : ext;
  _low : ext;
  _high : ext;
  _standard_normal_dist : Normal.t;
  _alpha : ext;
  _beta : ext;
  _standard_normal_cdf_alpha : ext;
  _standard_normal_cdf_beta : ext;
  _Z : ext;
  _log_stddev_Z : ext;
  _mean : option ext;
  _variance : option ext
}.

(** [torch.zeros_like(m)] and [torch.ones_like(s)] are 0 and 1. *)
Definition __init__ `{ErrorFunction}
    (mean_non_truncated stddev_non_truncated low high : ext) : t :=
  let standard_normal_dist := Normal.__init__ (Fin 0) (Fin 1) in
  let alpha := ediv (esub low mean_non_truncated) stddev_non_truncated in
  let beta := ediv (esub high mean_non_truncated) stddev_non_truncated in
  let Z := esub (Normal.cdf standard_normal_dist beta)
                (Normal.cdf standard_normal_dist alpha) in
  {| _mean_non_truncated := mean_non_truncated;
     _stddev_non_truncated := stddev_non_truncated;
     _low := low;
     _high := high;
     _standard_normal_dist := standard_normal_dist;
     _alpha := alpha;
     _beta := beta;
     _standard_normal_cdf_alpha := Normal.cdf standard_normal_dist alpha;
     _standard_normal_cdf_beta := Normal.cdf standard_normal_dist beta;
     _Z := Z;
     _log_stddev_Z := elog (emul stddev_non_truncated Z);
     _mean := None;
     _variance := None |}.

Definition log_prob (self : t) (value : ext) : ext :=
  let lb := type_as (ege value (_low self)) in
  let ub := type_as (ele value (_high self)) in
  esub
    (eadd (elog (emul lb ub))
       (Normal.log_prob (_standard_normal_dist self)
          (ediv (esub value (_mean_non_truncated self))
             (_stddev_non_truncated self))))
    (_log_stddev_Z self).

Definition low (self : t) : ext := _low self.
Definition high (self : t) : ext := _high self.

Definition tail_warning : string :=
  "Warning: trying to sample from the tail of a truncated normal distribution, which can take a long time. A more efficient implementation is pending.".

(** The right-hand side of the assignment to [ret] in the loop of
    [sample]; [rand] is the variable assigned before the loop. *)
Definition sample_attempt `{ErrorFunction} (self : t) (rand : ext) : ext :=
  eadd
    (emul
       (Normal.icdf (_standard_normal_dist self)
          (eadd (_standard_normal_cdf_alpha self)
             (emul rand
                (esub (_standard_normal_cdf_beta self)
                   (_standard_normal_cdf_alpha self)))))
       (_stddev_non_truncated self))
    (_mean_non_truncated self).

(** The local variables of the loop and the lines printed so far. *)
Record loop_state : Type := mkLoop {
  attempt_count : Z;
  ret : ext;
  printed : list string
}.

(** How a run of the [while] loop stands after a number of tests of its
    condition: it has left the loop, or it is still inside it. *)
Inductive outcome : Type :=
| Returned (s : loop_state)
| Running (s : loop_state).

(** One turn of [while util.has_nan_or_inf(ret)]. *)
Definition loop_body `{ErrorFunction} (self : t) (rand : ext)
    (s : loop_state) : loop_state :=
  let attempt_count := (attempt_count s + 1)%Z in
  let printed :=
    if (attempt_count =? 10000)%Z then (printed s ++ [tail_warning])%list
    else printed s in
  {| attempt_count := attempt_count;
     ret := sample_attempt self rand;
     printed := printed |}.

(** The loop, run for at most [fuel] tests of its condition. *)
Fixpoint sample_loop `{ErrorFunction} (fuel : nat) (self : t) (rand : ext)
    (s : loop_state) : outcome :=
  match fuel with
  | O => Running s
  | S fuel' =>
      if has_nan_or_inf (ret s)
      then sample_loop fuel' self rand (loop_body self rand s)
      else Returned s
  end.

(** [sample]: the generator is read once, before the loop. *)
Definition sample `{ErrorFunction} (fuel : nat) (self : t) (rng : RNG)
    : outcome * RNG :=
  let (rand, rng') := uniform_ rng in
  (sample_loop fuel self rand
     {| attempt_count := 0; ret := NaN; printed := [] |},
   rng').

(** [Distribution.prob], inherited: [torch.exp(self.log_prob(value))]. *)
Definition prob (self : t) (value : ext) : ext :=
  eexp (log_prob self value).

Definition mean_non_truncated (self : t) : ext := _mean_non_truncated self.
Definition stddev_non_truncated (self : t) : ext := _stddev_non_truncated self.
Definition variance_non_truncated (self : t) : ext :=
  pow2 (_stddev_non_truncated self).

Definition set_mean (self : t) (m : option ext) : t :=
  {| _mean_non_truncated := _mean_non_truncated self;
     _stddev_non_truncated := _stddev_non_truncated self;
     _low := _low self;
     _high := _high self;
     _standard_normal_dist := _standard_normal_dist self;
     _alpha := _alpha self;
     _beta := _beta self;
     _standard_normal_cdf_alpha := _standard_normal_cdf_alpha self;
     _standard_normal_cdf_beta := _standard_normal_cdf_beta self;
     _Z := _Z self;
     _log_stddev_Z := _log_stddev_Z self;
     _mean := m;
     _variance := _variance self |}.

Definition set_variance (self : t) (v : option ext) : t :=
  {| _mean_non_truncated := _mean_non_truncated self;
     _stddev_non_truncated := _stddev_non_truncated self;
     _low := _low self;
     _high := _high self;
     _standard_normal_dist := _standard_normal_dist self;
     _alpha := _alpha self;
     _beta := _beta self;
     _standard_normal_cdf_alpha := _standard_normal_cdf_alpha self;
     _standard_normal_cdf_beta := _standard_normal_cdf_beta self;
     _Z := _Z self;
     _log_stddev_Z := _log_stddev_Z self;
     _mean := _mean self;
     _variance := v |}.

(** The property [mean]: the result and the object with its cache filled. *)
Definition mean (self : t) : ext * t :=
  match _mean self with
  | Some m => (m, self)
  | None =>
      let m :=
        eadd (_mean_non_truncated self)
          (ediv
             (emul (_stddev_non_truncated self)
                (esub (Normal.prob (_standard_normal_dist self) (_alpha self))
                      (Normal.prob (_standard_normal_dist self) (_beta self))))
             (_Z self)) in
      (m, set_mean self (Some m))
  end.

(** The property [variance]. *)
Definition variance (self : t) : ext * t :=
  match _variance self with
  | Some v => (v, self)
  | None =>
      let standard_normal_prob_alpha :=
        Normal.prob (_standard_normal_dist self) (_alpha self) in
      let standard_normal_prob_beta :=
        Normal.prob (_standard_normal_dist self) (_beta self) in
      let v :=
        emul (pow2 (_stddev_non_truncated self))
          (esub
             (eadd (Fin 1)
                (ediv
                   (esub (emul (_alpha self) standard_normal_prob_alpha)
                         (emul (_beta self) standard_normal_prob_beta))
                   (_Z self)))
             (pow2 (ediv (esub standard_normal_prob_alpha
                               standard_normal_prob_beta)
                         (_Z self)))) in
      (v, set_variance self (Some v))
  end.

End TruncatedNormal.

(** ** Uniform *)

Module Uniform.

Record t : Type := mk {
  _low : ext;
  _high : ext;
  _mean : ext;
  _variance : ext
}.

Definition __init__ (low high : ext) : t :=
  {| _low := low;
     _high := high;
     _mean := ediv (eadd high low) (Fin 2);
     _variance := ediv (pow2 (esub high low)) (Fin 12) |}.

(** [rand] is the draw of [torch.zeros(shape).uniform_()]. *)
Definition sample (self : t) (rand : ext) : ext :=
  eadd (_low self) (emul rand (esub (_high self) (_low self))).

Definition log_prob (self : t) (value : ext) : ext :=
  let lb := type_as (ege value (_low self)) in
  let ub := type_as (elt value (_high self)) in
  esub (elog (emul lb ub)) (elog (esub (_high self) (_low self))).

Definition mean (self : t) : ext := _mean self.
Definition variance (self : t) : ext := _variance self.
Definition low (self : t) : ext := _low self.
Definition high (self : t) : ext := _high self.

(** [Distribution.prob], inherited: [torch.exp(self.log_prob(value))]. *)
Definition prob (self : t) (value : ext) : ext :=
  eexp (log_prob self value).

(** [Distribution.stddev], inherited; there is no [_torch_dist], so it is
    [self.variance.sqrt()]. *)
Definition stddev (self : t) : ext := esqrt (variance self).

End Uniform.

(** ** The standard normal on the reals

    The functions in which the properties of [Normal] and
    [TruncatedNormal] are stated. *)

Definition standard_normal : Normal.t := Normal.__init__ (Fin 0) (Fin 1).

(** The distribution function of the standard normal. *)
Definition Phi `{ErrorFunction} (a : R) : R := 0.5 * (1 + erf (a / sqrt 2)).

(** Its inverse on (0, 1). *)
Definition Phi_inv `{ErrorFunction} (u : R) : R := erfinv (2 * u - 1) * sqrt 2.

(** The log-density of the standard normal. *)
Definition standard_normal_log_density (z : R) : R :=
  - (z * z) / 2 - ln (sqrt (2 * PI)).

(** The density of the standard normal. *)
Definition standard_normal_density (z : R) : R :=
  exp (standard_normal_log_density z).

(** The normal truncated to (-inf, 0]. *)
Definition lower_half_normal `{ErrorFunction} : TruncatedNormal.t :=
  TruncatedNormal.__init__ (Fin 0) (Fin 1) NInf (Fin 0).

(** A function that meets the contract of [ErrorFunction], and its
    inverse. *)
Definition soft_sign (x : R) : R := x / (1 + Rabs x).
Definition soft_sign_inv (y : R) : R := y / (1 - Rabs y).

(** ** Empirical *)

(** The sum of a list of reals. *)
Definition Rsum (l : list R) : R := fold_right Rplus 0 l.

(** Modelled from the spec: [util.logsumexp], the log-sum-exp of a vector
    of log-weights, log (exp x_1 + ... + exp x_n); the file that defines
    it is not part of the sources. *)
Definition logsumexp (x : list R) : R :=
  ln (Rsum (map exp x)).

Module Empirical.

(** [collections.defaultdict(float)]: the entries in insertion order. *)
Definition dict (V : Type) : Type := list (V * R).

Record t (V : Type) : Type := mk {
  values : list V;
  weights : list R;
  length : nat;
  _mean : option R;
  _mean_unweighted : option R;
  _variance : option R;
  _variance_unweighted : option R
}.

Arguments mk {V}.
Arguments values {V}.
Arguments weights {V}.
Arguments length {V}.
Arguments _mean {V}.
Arguments _mean_unweighted {V}.
Arguments _variance {V}.
Arguments _variance_unweighted {V}.

Section Construction.

Variable V : Type.

(** [torch.equal(key, values[i])] *)
Variable torch_equal : V -> V -> bool.

(** [key_same k v]: the dictionary takes the element [v], just read from
    [values], for its stored key [k] (same hash and [==]).  A tensor hashes
    by identity and every [values[i]] is a new tensor object, so for
    tensors it is constantly false; for hashable Python values (numbers,
    strings) it is their equality. *)
Variable key_same : V -> V -> bool.

(** [torch.sort(input, descending)]: the sorted weights and, for each of
    them, its index in the input. *)
Variable torch_sort : list R -> bool -> list R * list nat.

(** [distribution[k] = x] for an element [k] just read from [values]. *)
Fixpoint setitem (d : dict V) (k : V) (x : R) : dict V :=
  match d with
  | [] => [(k, x)]
  | (k', x') :: rest =>
      if key_same k' k then (k', x) :: rest
      else (k', x') :: setitem rest k x
  end.

(** [distribution[k] += w]: a missing key starts from [float()], 0.0. *)
Fixpoint iadd (d : dict V) (k : V) (w : R) : dict V :=
  match d with
  | [] => [(k, 0 + w)]
  | (k', x') :: rest =>
      if key_same k' k then (k', x' + w) :: rest
      else (k', x') :: iadd rest k w
  end.

(** The inner loop over [distribution.items()]: every key equal to [v]
    has [w] added to its weight, and [found] is set. *)
Fixpoint scan (items : dict V) (v : V) (w : R) (found : bool)
    : dict V * bool :=
  match items with
  | [] => ([], found)
  | (key, value) :: rest =>
      if torch_equal key v then
        let (rest', found') := scan rest v w true in
        ((key, value + w) :: rest', found')
      else
        let (rest', found') := scan rest v w found in
        ((key, value) :: rest', found')
  end.

(** [for i in range(length)] of the branch [combine_duplicates], on the
    elements [values[i]] and [weights[i]] still to come; [None] when
    [weights[i]] is out of range. *)
Fixpoint combine_loop (values : list V) (weights : list R)
    (distribution : dict V) : option (dict V) :=
  match values with
  | [] => Some distribution
  | v :: values' =>
      match weights with
      | [] => None
      | w :: weights' =>
          let (distribution', found) := scan distribution v w false in
          combine_loop values' weights'
            (if found then distribution' else setitem distribution' v w)
      end
  end.

(** [for i in range(length)] of the other branch. *)
Fixpoint plain_loop (values : list V) (weights : list R)
    (distribution : dict V) : option (dict V) :=
  match values with
  | [] => Some distribution
  | v :: values' =>
      match weights with
      | [] => None
      | w :: weights' => plain_loop values' weights' (iadd distribution v w)
      end
  end.

(** The normalized weights. *)
Definition normalize (log_weights : list R) : list R :=
  map (fun x => exp (x - logsumexp log_weights)) log_weights.

(** The first part of [__init__]: the default log-weights, the
    normalization and the aggregation into [distribution].  [math.log(0)]
    raises for an empty [values] without log-weights. *)
Definition aggregate (values : list V) (log_weights : option (list R))
    (combine_duplicates : bool) : option (dict V) :=
  let length := List.length values in
  let log_weights :=
    match log_weights with
    | None =>
        if Nat.eqb length 0 then None
        else Some (repeat (- ln (INR length)) length)
    | Some log_weights => Some log_weights
    end in
  match log_weights with
  | None => None
  | Some log_weights =>
      let weights := normalize log_weights in
      if combine_duplicates then combine_loop values weights []
      else plain_loop values weights []
  end.

(** [[values[int(i)] for i in indices]] *)
Fixpoint gather (values : list V) (indices : list nat) : option (list V) :=
  match indices with
  | [] => Some []
  | i :: rest =>
      match nth_error values i, gather values rest with
      | Some v, Some vs => Some (v :: vs)
      | _, _ => None
      end
  end.

(** The second part of [__init__]: the keys and weights of [distribution]
    are sorted by descending weight and stored.  [torch.cat] raises on an
    empty list. *)
Definition store (distribution : dict V) : option (t V) :=
  let values := map fst distribution in
  let weights := map snd distribution in
  match weights with
  | [] => None
  | _ :: _ =>
      let (sorted, indices) := torch_sort weights true in
      match gather values indices with
      | None => None
      | Some values' =>
          Some {| values := values';
                  weights := sorted;
                  length := List.length values;
                  _mean := None;
                  _mean_unweighted := None;
                  _variance := None;
                  _variance_unweighted := None |}
      end
  end.

Definition __init__ (values : list V) (log_weights : option (list R))
    (combine_duplicates : bool) : option (t V) :=
  match aggregate values log_weights combine_duplicates with
  | None => None
  | Some distribution => store distribution
  end.

Definition __len__ (self : t V) : nat := length self.

(** [expectation]: [None] when an index is out of range. *)
Definition expectation (self : t V) (func : V -> R) : option R :=
  fold_left
    (fun ret i =>
       match ret, nth_error (values self) i, nth_error (weights self) i with
       | Some ret, Some v, Some w => Some (ret + func v * w)
       | _, _, _ => None
       end)
    (seq 0 (length self)) (Some 0).

End Construction.

Arguments expectation {V}.
Arguments __len__ {V}.

(** The properties below compute with the stored values: the values are
    numbers.  Each returns its result and the object with its cache
    filled. *)

Definition mean (self : t R) : option (R * t R) :=
  match _mean self with
  | Some m => Some (m, self)
  | None =>
      match expectation self (fun x => x) with
      | None => None
      | Some m =>
          Some (m, {| values := values self; weights := weights self;
                      length := length self;
                      _mean := Some m;
                      _mean_unweighted := _mean_unweighted self;
                      _variance := _variance self;
                      _variance_unweighted := _variance_unweighted self |})
      end
  end.

Definition variance (self : t R) : option (R * t R) :=
  match _variance self with
  | Some v => Some (v, self)
  | None =>
      match mean self with
      | None => None
      | Some (mean, self) =>
          match expectation self (fun x => (x - mean) ^ 2) with
          | None => None
          | Some v =>
              Some (v, {| values := values self; weights := weights self;
                          length := length self;
                          _mean := _mean self;
                          _mean_unweighted := _mean_unweighted self;
                          _variance := Some v;
                          _variance_unweighted := _variance_unweighted self |})
          end
      end
  end.

(** [total = 0; for i in range(self.length): total += f(self.values[i])] *)
Definition total_of (self : t R) (f : R -> R) : option R :=
  fold_left
    (fun total i =>
       match total, nth_error (values self) i with
       | Some total, Some v => Some (total + f v)
       | _, _ => None
       end)
    (seq 0 (length self)) (Some 0).

(** [total / self.length] raises on a zero length. *)
Definition mean_unweighted (self : t R) : option (R * t R) :=
  match _mean_unweighted self with
  | Some m => Some (m, self)
  | None =>
      match total_of self (fun x => x) with
      | None => None
      | Some total =>
          if Nat.eqb (length self) 0 then None
          else
            let m := total / INR (length self) in
            Some (m, {| values := values self; weights := weights self;
                        length := length self;
                        _mean := _mean self;
                        _mean_unweighted := Some m;
                        _variance := _variance self;
                        _variance_unweighted := _variance_unweighted self |})
      end
  end.

Definition variance_unweighted (self : t R) : option (R * t R) :=
  match _variance_unweighted self with
  | Some v => Some (v, self)
  | None =>
      match mean_unweighted self with
      | None => None
      | Some (mean_unweighted, self) =>
          match total_of self (fun x => (x - mean_unweighted) ^ 2) with
          | None => None
          | Some total =>
              if Nat.eqb (length self) 0 then None
              else
                let v := total / INR (length self) in
                Some (v, {| values := values self; weights := weights self;
                            length := length self;
                            _mean := _mean self;
                            _mean_unweighted := _mean_unweighted self;
                            _variance := _variance self;
                            _variance_unweighted := Some v |})
          end
      end
  end.

(** [variance_unweighted.sqrt()], for values that are tensors. *)
Definition stddev_unweighted (self : t R) : option (ext * t R) :=
  match variance_unweighted self with
  | None => None
  | Some (v, self) => Some (esqrt (Fin v), self)
  end.

(** [Distribution.stddev], inherited; there is no [_torch_dist], so it is
    [self.variance.sqrt()]. *)
Definition stddev (self : t R) : option (ext * t R) :=
  match variance self with
  | None => None
  | Some (v, self) => Some (esqrt (Fin v), self)
  end.

End Empirical.

(** The order that [torch.sort] produces: descending or ascending. *)
Definition sort_order (descending : bool) (a b : R) : Prop :=
  if descending then a >= b else a <= b.

(** The contract of [torch.sort(input, descending)]: the indices are a
    permutation of the positions of the input, each sorted weight is the
    input weight at its index, and the sorted weights descend when
    [descending] is set and ascend when it is not.  The order among equal
    weights is left to the runtime. *)
Definition sort_contract (torch_sort : list R -> bool -> list R * list nat)
    : Prop :=
  forall (ws : list R) (descending : bool),
    Permutation (snd (torch_sort ws descending)) (seq 0 (List.length ws)) /\
    fst (torch_sort ws descending)
    = map (fun i => nth i ws 0) (snd (torch_sort ws descending)) /\
    StronglySorted (sort_order descending) (fst (torch_sort ws descending)).

(** The weight that the input gives to the value [v]: the sum of the
    [weights[i]] over the positions [i] with [values[i]] equal to [v]. *)
Fixpoint total_weight_of {V : Type} (equal : V -> V -> bool) (v : V)
    (values : list V) (weights : list R) : R :=
  match values, weights with
  | v' :: values', w :: weights' =>
      (if equal v' v then w else 0) + total_weight_of equal v values' weights'
  | _, _ => 0
  end.

(** The log-weights [__init__] works with: those given, or the uniform
    default. *)
Definition input_log_weights {V : Type} (values : list V)
    (log_weights : option (list R)) : list R :=
  match log_weights with
  | None => repeat (- ln (INR (List.length values))) (List.length values)
  | Some log_weights => log_weights
  end.

(** The input is a sequence of (value, log-weight) pairs: log-weights,
    when given, come one per value. *)
Definition one_weight_per_value {V : Type} (values : list V)
    (log_weights : option (list R)) : Prop :=
  List.length (input_log_weights values log_weights) = List.length values.

(** The total weight that [distribution] holds for the key [k]. *)
Definition weight_in {V : Type} (equal : V -> V -> bool)
    (d : Empirical.dict V) (k : V) : R :=
  Rsum (map snd (filter (fun p => equal (fst p) k) d)).

(** [w] added to the weight of every entry whose key equals [v]. *)
Definition bump {V : Type} (equal : V -> V -> bool) (v : V) (w : R)
    (d : Empirical.dict V) : Empirical.dict V :=
  map (fun p => if equal (fst p) v then (fst p, snd p + w) else p) d.

(** The sum of [func] over the input, each value with its weight. *)
Definition input_sum {V : Type} (func : V -> R) (values : list V)
    (weights : list R) : R :=
  Rsum (map (fun p => func (fst p) * snd p) (combine values weights)).

(** The sum of [func] over the entries of [distribution]. *)
Definition dict_sum {V : Type} (func : V -> R) (d : Empirical.dict V) : R :=
  Rsum (map (fun p => func (fst p) * snd p) d).

(** The stored lists have the stored length. *)
Definition well_formed {V : Type} (self : Empirical.t V) : Prop :=
  Empirical.length self = List.length (Empirical.values self) /\
  List.length (Empirical.values self) = List.length (Empirical.weights self).

(** The object with its caches set. *)
Definition with_caches (self : Empirical.t R)
    (mean mean_unweighted variance variance_unweighted : option R)
    : Empirical.t R :=
  {| Empirical.values := Empirical.values self;
     Empirical.weights := Empirical.weights self;
     Empirical.length := Empirical.length self;
     Empirical._mean := mean;
     Empirical._mean_unweighted := mean_unweighted;
     Empirical._variance := variance;
     Empirical._variance_unweighted := variance_unweighted |}.

(** The weighted sum of [func] over the stored entries. *)
Definition weighted_sum {V : Type} (func : V -> R) (self : Empirical.t V) : R :=
  Rsum (map (fun p => func (fst p) * snd p)
          (combine (Empirical.values self) (Empirical.weights self))).

(** A sort that meets the contract: insertion of the indexed weights. *)
Definition goes_after (descending : bool) (a b : R) : bool :=
  if descending then (if Rle_dec a b then true else false)
  else (if Rle_dec b a then true else false).

Fixpoint insert_ordered (descending : bool) (p : R * nat)
    (l : list (R * nat)) : list (R * nat) :=
  match l with
  | [] => [p]
  | q :: l' =>
      if goes_after descending (fst p) (fst q)
      then q :: insert_ordered descending p l'
      else p :: q :: l'
  end.

Definition index_sort (ws : list R) (descending : bool) : list R * list nat :=
  let ps := fold_right (insert_ordered descending) []
              (combine ws (seq 0 (List.length ws))) in
  (map fst ps, map snd ps).

(** Equality of numbers, as a boolean. *)
Definition Req_bool (a b : R) : bool := if Req_dec_T a b then true else false.

(** The keys of tensors: an element just read is never a stored key. *)
Definition fresh_key {V : Type} (k v : V) : bool := false.


(** * Properties *)

Lemma ege_Fin a b : ege (Fin a) (Fin b) = true <-> b <= a.
Proof. simpl. destruct (Rle_dec b a); split; intros; try easy. Qed.

Lemma elt_Fin a b : elt (Fin a) (Fin b) = true <-> a < b.
Proof. simpl. destruct (Rlt_dec a b); split; intros; try easy. Qed.

Lemma elog_pos a : 0 < a -> elog (Fin a) = Fin (ln a).
Proof. intros H. simpl. destruct (Rlt_dec 0 a); [reflexivity | contradiction]. Qed.

Lemma elog_0 : elog (Fin 0) = NInf.
Proof.
  simpl. destruct (Rlt_dec 0 0); [lra |].
  destruct (Req_dec_T 0 0); [reflexivity | lra].
Qed.

Lemma elog_1 : elog (Fin 1) = Fin 0.
Proof. rewrite elog_pos by lra. now rewrite ln_1. Qed.

Lemma ediv_Fin a b : b <> 0 -> ediv (Fin a) (Fin b) = Fin (a / b).
Proof. intros H. simpl. destruct (Req_dec_T b 0); [contradiction | reflexivity]. Qed.

Lemma emul_Fin a b : emul (Fin a) (Fin b) = Fin (a * b).
Proof. reflexivity. Qed.

Lemma esub_Fin a b : esub (Fin a) (Fin b) = Fin (a - b).
Proof. reflexivity. Qed.

Lemma eadd_Fin a b : eadd (Fin a) (Fin b) = Fin (a + b).
Proof. reflexivity. Qed.

Lemma ege_Fin_false a b : ege (Fin a) (Fin b) = false <-> a < b.
Proof. simpl. destruct (Rle_dec b a); split; intros; try easy; lra. Qed.

Lemma elt_Fin_false a b : elt (Fin a) (Fin b) = false <-> b <= a.
Proof. simpl. destruct (Rlt_dec a b); split; intros; try easy; lra. Qed.

(** The product of two comparison masks is the mask of the conjunction. *)
Lemma mask_product b1 b2 :
  emul (type_as b1) (type_as b2) = type_as (b1 && b2).
Proof. destruct b1, b2; simpl; f_equal; lra. Qed.

Lemma elog_mask b : elog (type_as b) = if b then Fin 0 else NInf.
Proof. destruct b; simpl type_as; [apply elog_1 | apply elog_0]. Qed.

(** ** Uniform *)

Lemma uniform_log_prob_inside (low high x : R) :
  low < high -> low <= x < high ->
  Uniform.log_prob (Uniform.__init__ (Fin low) (Fin high)) (Fin x)
  = Fin (- ln (high - low)).
Proof.
  intros Hlh [Hl Hh]. unfold Uniform.log_prob. cbn [Uniform._low Uniform._high Uniform.__init__].
  rewrite mask_product, elog_mask.
  apply ege_Fin in Hl. apply elt_Fin in Hh. rewrite Hl, Hh. cbn [andb].
  rewrite esub_Fin, elog_pos by lra. rewrite esub_Fin. f_equal. lra.
Qed.

Lemma uniform_log_prob_outside (low high : R) (x : ext) :
  low < high -> (forall r, x = Fin r -> ~ (low <= r < high)) ->
  Uniform.log_prob (Uniform.__init__ (Fin low) (Fin high)) x = NInf.
Proof.
  intros Hlh Hout. unfold Uniform.log_prob. cbn [Uniform._low Uniform._high Uniform.__init__].
  rewrite mask_product, elog_mask.
  assert (Hm : ege x (Fin low) && elt x (Fin high) = false).
  { destruct x as [r | | |]; try reflexivity.
    specialize (Hout r eq_refl).
    apply andb_false_iff. destruct (Rle_dec low r) as [Hl | Hl].
    - right. apply elt_Fin_false. lra.
    - left. apply ege_Fin_false. lra. }
  rewrite Hm, esub_Fin, elog_pos by lra. reflexivity.
Qed.

(** C7. For Uniform(low, high) with low < high: the mean is (low+high)/2 and
    the variance (high-low)^2/12; log_prob(x) is -log(high-low) when
    low <= x < high and -inf for every other x, finite or not (the upper
    bound is excluded from the density); and Uniform(0,1) has mean 0.5, variance 1/12,
    log_prob(0.5) = 0, log_prob(1.0) = -inf and log_prob(-0.1) = -inf. *)
Theorem uniform_moments_and_density :
  (forall low high : R, low < high ->
     let u := Uniform.__init__ (Fin low) (Fin high) in
     Uniform.mean u = Fin ((low + high) / 2) /\
     Uniform.variance u = Fin ((high - low) ^ 2 / 12) /\
     (forall x, low <= x < high ->
        Uniform.log_prob u (Fin x) = Fin (- ln (high - low))) /\
     (forall x : ext, (forall r, x = Fin r -> ~ (low <= r < high)) ->
        Uniform.log_prob u x = NInf)) /\
  (let u := Uniform.__init__ (Fin 0) (Fin 1) in
   Uniform.mean u = Fin 0.5 /\
   Uniform.variance u = Fin (1 / 12) /\
   Uniform.log_prob u (Fin 0.5) = Fin 0 /\
   Uniform.log_prob u (Fin 1.0) = NInf /\
   Uniform.log_prob u (Fin (-0.1)) = NInf).
Proof.
  assert (Hmean : forall low high : R,
             Uniform.mean (Uniform.__init__ (Fin low) (Fin high))
             = Fin ((low + high) / 2)).
  { intros. unfold Uniform.mean, Uniform.__init__; cbn [Uniform._mean].
    rewrite eadd_Fin, ediv_Fin by lra. f_equal. lra. }
  assert (Hvar : forall low high : R,
             Uniform.variance (Uniform.__init__ (Fin low) (Fin high))
             = Fin ((high - low) ^ 2 / 12)).
  { intros. unfold Uniform.variance, Uniform.__init__; cbn [Uniform._variance].
    unfold pow2. rewrite esub_Fin, emul_Fin, ediv_Fin by lra. f_equal. lra. }
  split.
  - intros low high Hlh u. subst u. repeat split.
    + apply Hmean.
    + apply Hvar.
    + intros x Hx. now apply uniform_log_prob_inside.
    + intros x Hx. now apply uniform_log_prob_outside.
  - cbv zeta. repeat split.
    + rewrite Hmean. f_equal. lra.
    + rewrite Hvar. f_equal. lra.
    + rewrite uniform_log_prob_inside by lra. f_equal.
      replace (1 - 0) with 1 by lra. rewrite ln_1. lra.
    + apply uniform_log_prob_outside; [lra |]. intros r [= <-]. lra.
    + apply uniform_log_prob_outside; [lra |]. intros r [= <-]. lra.
Qed.

Lemma uniform_moments_and_density_witness :
  0 < 2 /\
  Uniform.mean (Uniform.__init__ (Fin 0) (Fin 2)) = Fin ((0 + 2) / 2).
Proof.
  split; [lra |].
  exact (proj1 (proj1 uniform_moments_and_density 0 2 ltac:(lra))).
Defined.

(** ** A model of the error-function contract

    The map x |-> x / (1 + |x|) is a strictly increasing bijection from the
    reals onto (-1, 1) that vanishes at 0, with inverse y |-> y / (1 - |y|):
    the contract of [ErrorFunction] can be met. *)

Lemma div_lt_cross a b c d :
  0 < b -> 0 < d -> a * d < c * b -> a / b < c / d.
Proof.
  intros Hb Hd H. unfold Rdiv.
  apply Rmult_lt_reg_r with (r := b * d); [nra |].
  replace (a * / b * (b * d)) with (a * d) by (field; lra).
  replace (c * / d * (b * d)) with (c * b) by (field; lra).
  exact H.
Qed.

Lemma soft_sign_increasing x y : x < y -> soft_sign x < soft_sign y.
Proof.
  intros Hxy. unfold soft_sign.
  pose proof (Rabs_pos x). pose proof (Rabs_pos y).
  apply div_lt_cross; try lra.
  unfold Rabs in *. destruct (Rcase_abs x), (Rcase_abs y); nra.
Qed.

Lemma soft_sign_bounds x : -1 < soft_sign x < 1.
Proof.
  unfold soft_sign. pose proof (Rabs_pos x).
  split.
  - replace (-1) with (-1 / 1) by lra. apply div_lt_cross; try lra.
    unfold Rabs. destruct (Rcase_abs x); lra.
  - replace 1 with (1 / 1) at 2 by lra. apply div_lt_cross; try lra.
    unfold Rabs. destruct (Rcase_abs x); lra.
Qed.

Lemma soft_sign_inv_left x : soft_sign_inv (soft_sign x) = x.
Proof.
  unfold soft_sign_inv, soft_sign.
  destruct (Rcase_abs x) as [Hneg | Hpos].
  - rewrite (Rabs_left x) by exact Hneg.
    assert (Hq : x / (1 + - x) < 0).
    { replace 0 with (0 / 1) by lra. apply div_lt_cross; lra. }
    rewrite Rabs_left by exact Hq. field. lra.
  - rewrite (Rabs_right x) by exact Hpos.
    assert (Hq : x / (1 + x) >= 0).
    { apply Rle_ge. apply Rmult_le_pos; [lra |].
      apply Rlt_le, Rinv_0_lt_compat. lra. }
    rewrite Rabs_right by exact Hq. field. lra.
Qed.

Lemma soft_sign_inv_right y : -1 < y < 1 -> soft_sign (soft_sign_inv y) = y.
Proof.
  intros [Hl Hu]. unfold soft_sign_inv, soft_sign.
  destruct (Rcase_abs y) as [Hneg | Hpos].
  - rewrite (Rabs_left y) by exact Hneg.
    assert (Hq : y / (1 - - y) < 0).
    { replace 0 with (0 / 1) by lra. apply div_lt_cross; lra. }
    rewrite Rabs_left by exact Hq. field. lra.
  - rewrite (Rabs_right y) by exact Hpos.
    assert (Hq : y / (1 - y) >= 0).
    { apply Rle_ge. apply Rmult_le_pos; [lra |].
      apply Rlt_le, Rinv_0_lt_compat. lra. }
    rewrite Rabs_right by exact Hq. field. lra.
Qed.

Lemma soft_sign_0 : soft_sign 0 = 0.
Proof. unfold soft_sign. rewrite Rabs_R0. lra. Qed.

Definition soft_sign_model : ErrorFunction :=
  {| erf := soft_sign;
     erfinv := soft_sign_inv;
     erf_0 := soft_sign_0;
     erf_increasing := soft_sign_increasing;
     erf_bounds := soft_sign_bounds;
     erfinv_erf := soft_sign_inv_left;
     erf_erfinv := soft_sign_inv_right |}.

(** ** Normal *)

Section NormalProperties.

Context {EF : ErrorFunction}.

Lemma sqrt2_pos : 0 < sqrt 2.
Proof. apply sqrt_lt_R0. lra. Qed.

Lemma erfinv_0 : erfinv 0 = 0.
Proof. rewrite <- erf_0 at 1. apply erfinv_erf. Qed.

Lemma erf_monotone x y : x <= y -> erf x <= erf y.
Proof.
  intros [Hlt | ->]; [left; now apply erf_increasing | right; reflexivity].
Qed.


Lemma torch_erfinv_inside y :
  -1 < y < 1 -> torch_erfinv (Fin y) = Fin (erfinv y).
Proof.
  intros [Hl Hu]. simpl.
  destruct (Rlt_dec (-1) y); [| contradiction].
  destruct (Rlt_dec y 1); [reflexivity | contradiction].
Qed.

Lemma torch_erfinv_minus_one : torch_erfinv (Fin (-1)) = NInf.
Proof.
  simpl. destruct (Rlt_dec (-1) (-1)); [lra |].
  destruct (Req_dec_T (-1) (-1)); [reflexivity | lra].
Qed.

Lemma reciprocal_Fin s : s <> 0 -> reciprocal (Fin s) = Fin (1 / s).
Proof. intros Hs. unfold reciprocal. now apply ediv_Fin. Qed.

Lemma normal_cdf_finite (mean stddev x : R) :
  stddev <> 0 ->
  Normal.cdf (Normal.__init__ (Fin mean) (Fin stddev)) (Fin x)
  = Fin (0.5 * (1 + erf ((x - mean) / (stddev * sqrt 2)))).
Proof.
  intros Hs. pose proof sqrt2_pos as H2.
  unfold Normal.cdf, Normal.__init__; cbn [Normal._mean Normal._stddev].
  rewrite esub_Fin, reciprocal_Fin, emul_Fin, ediv_Fin by lra.
  cbn [torch_erf]. rewrite eadd_Fin, emul_Fin.
  do 4 f_equal. field. lra.
Qed.

Lemma normal_icdf_finite (mean stddev p : R) :
  0 < p < 1 ->
  Normal.icdf (Normal.__init__ (Fin mean) (Fin stddev)) (Fin p)
  = Fin (mean + stddev * erfinv (2 * p - 1) * sqrt 2).
Proof.
  intros Hp.
  unfold Normal.icdf, Normal.__init__; cbn [Normal._mean Normal._stddev].
  rewrite emul_Fin, esub_Fin, torch_erfinv_inside by lra.
  reflexivity.
Qed.

Lemma normal_cdf_icdf_roundtrip (mean stddev p : R) :
  stddev <> 0 -> 0 < p < 1 ->
  let n := Normal.__init__ (Fin mean) (Fin stddev) in
  Normal.cdf n (Normal.icdf n (Fin p)) = Fin p.
Proof.
  intros Hs Hp n. subst n. pose proof sqrt2_pos as H2.
  rewrite normal_icdf_finite, normal_cdf_finite by assumption.
  f_equal.
  replace ((mean + stddev * erfinv (2 * p - 1) * sqrt 2 - mean) / (stddev * sqrt 2))
    with (erfinv (2 * p - 1)) by (field; lra).
  rewrite erf_erfinv by lra. lra.
Qed.

(** C6. Normal(mean, stddev) has
    cdf(x) = 0.5 (1 + erf((x - mean) / (stddev sqrt 2))) and
    icdf(p) = mean + stddev erfinv(2p - 1) sqrt 2 (p in (0,1)); and for
    Normal(0,1): cdf(0) = 0.5, icdf(0.5) = 0 and cdf(icdf(p)) = p for every
    p in (0,1). *)
Theorem normal_cdf_icdf :
  (forall mean stddev x : R, stddev <> 0 ->
     Normal.cdf (Normal.__init__ (Fin mean) (Fin stddev)) (Fin x)
     = Fin (0.5 * (1 + erf ((x - mean) / (stddev * sqrt 2))))) /\
  (forall mean stddev p : R, 0 < p < 1 ->
     Normal.icdf (Normal.__init__ (Fin mean) (Fin stddev)) (Fin p)
     = Fin (mean + stddev * erfinv (2 * p - 1) * sqrt 2)) /\
  (let n := Normal.__init__ (Fin 0) (Fin 1) in
   Normal.cdf n (Fin 0) = Fin 0.5 /\
   Normal.icdf n (Fin 0.5) = Fin 0 /\
   forall p : R, 0 < p < 1 -> Normal.cdf n (Normal.icdf n (Fin p)) = Fin p).
Proof.
  pose proof sqrt2_pos as H2.
  split; [exact normal_cdf_finite |].
  split; [exact normal_icdf_finite |].
  cbv zeta. repeat split.
  - rewrite normal_cdf_finite by lra. f_equal.
    replace ((0 - 0) / (1 * sqrt 2)) with 0 by (field; lra).
    rewrite erf_0. lra.
  - rewrite normal_icdf_finite by lra. f_equal.
    replace (2 * 0.5 - 1) with 0 by lra. rewrite erfinv_0. lra.
  - intros p Hp. apply normal_cdf_icdf_roundtrip; [lra | exact Hp].
Qed.

End NormalProperties.

Lemma normal_cdf_icdf_witness :
  1 <> 0 /\
  @Normal.cdf soft_sign_model (Normal.__init__ (Fin 0) (Fin 1)) (Fin 0)
  = Fin (0.5 * (1 + soft_sign ((0 - 0) / (1 * sqrt 2)))).
Proof.
  split; [lra |].
  exact (proj1 (@normal_cdf_icdf soft_sign_model) 0 1 0 ltac:(lra)).
Defined.

(** ** TruncatedNormal *)

Section TruncatedNormalProperties.

Context {EF : ErrorFunction}.

Lemma standard_normal_cdf a :
  Normal.cdf standard_normal (Fin a) = Fin (Phi a).
Proof.
  unfold standard_normal. rewrite normal_cdf_finite by lra.
  unfold Phi. pose proof sqrt2_pos. do 4 f_equal. field. lra.
Qed.

Lemma standard_normal_icdf u :
  0 < u < 1 -> Normal.icdf standard_normal (Fin u) = Fin (Phi_inv u).
Proof.
  intros Hu. unfold standard_normal. rewrite normal_icdf_finite by lra.
  unfold Phi_inv. f_equal. lra.
Qed.

Lemma standard_normal_log_prob z :
  Normal.log_prob standard_normal (Fin z)
  = Fin (standard_normal_log_density z).
Proof.
  unfold Normal.log_prob, standard_normal, Normal.__init__.
  cbn [Normal._mean Normal._stddev]. unfold pow2.
  rewrite esub_Fin, !emul_Fin. cbn [eopp].
  rewrite ediv_Fin by lra. rewrite elog_1, !esub_Fin.
  unfold standard_normal_log_density. f_equal. field.
Qed.

Lemma Phi_increasing a b : a < b -> Phi a < Phi b.
Proof.
  intros Hab. unfold Phi. pose proof sqrt2_pos as H2.
  assert (Hlt : a / sqrt 2 < b / sqrt 2).
  { unfold Rdiv. apply Rmult_lt_compat_r; [now apply Rinv_0_lt_compat | exact Hab]. }
  apply erf_increasing in Hlt. lra.
Qed.

Lemma Phi_bounds a : 0 < Phi a < 1.
Proof. unfold Phi. pose proof (erf_bounds (a / sqrt 2)). lra. Qed.



(** What the constructor precomputes, for finite parameters. *)
Lemma truncated_normal_init_finite (mean stddev low high : R) :
  stddev <> 0 ->
  let tn := TruncatedNormal.__init__ (Fin mean) (Fin stddev) (Fin low) (Fin high) in
  let alpha := (low - mean) / stddev in
  let beta := (high - mean) / stddev in
  TruncatedNormal._alpha tn = Fin alpha /\
  TruncatedNormal._beta tn = Fin beta /\
  TruncatedNormal._standard_normal_cdf_alpha tn = Fin (Phi alpha) /\
  TruncatedNormal._standard_normal_cdf_beta tn = Fin (Phi beta) /\
  TruncatedNormal._Z tn = Fin (Phi beta - Phi alpha) /\
  TruncatedNormal._log_stddev_Z tn = elog (Fin (stddev * (Phi beta - Phi alpha))).
Proof.
  intros Hs. cbv zeta. unfold TruncatedNormal.__init__.
  cbn [TruncatedNormal._alpha TruncatedNormal._beta
       TruncatedNormal._standard_normal_cdf_alpha
       TruncatedNormal._standard_normal_cdf_beta
       TruncatedNormal._Z TruncatedNormal._log_stddev_Z].
  rewrite !esub_Fin, !ediv_Fin by exact Hs.
  fold standard_normal. rewrite !standard_normal_cdf, esub_Fin, emul_Fin.
  repeat split; reflexivity.
Qed.

Lemma truncation_mass_pos (mean stddev low high : R) :
  0 < stddev -> low < high ->
  0 < Phi ((high - mean) / stddev) - Phi ((low - mean) / stddev).
Proof.
  intros Hs Hlh.
  assert (Hlt : (low - mean) / stddev < (high - mean) / stddev).
  { unfold Rdiv. apply Rmult_lt_compat_r; [now apply Rinv_0_lt_compat | lra]. }
  apply Phi_increasing in Hlt. lra.
Qed.






(** The loop of [sample] when an attempt on [rand] is not finite: every
    turn recomputes the same value from the same [rand], so the loop is
    still running after any number of turns; the warning is printed at the
    turn that makes [attempt_count] 10000 and never again. *)
Lemma sample_loop_stuck (self : TruncatedNormal.t) (rand : ext) :
  has_nan_or_inf (TruncatedNormal.sample_attempt self rand) = true ->
  forall (fuel : nat) (s : TruncatedNormal.loop_state),
    has_nan_or_inf (TruncatedNormal.ret s) = true ->
    TruncatedNormal.printed s
    = (if (10000 <=? TruncatedNormal.attempt_count s)%Z
       then [TruncatedNormal.tail_warning] else []) ->
    exists s',
      TruncatedNormal.sample_loop fuel self rand s = TruncatedNormal.Running s' /\
      TruncatedNormal.attempt_count s'
      = (TruncatedNormal.attempt_count s + Z.of_nat fuel)%Z /\
      TruncatedNormal.printed s'
      = (if (10000 <=? TruncatedNormal.attempt_count s')%Z
         then [TruncatedNormal.tail_warning] else []) /\
      has_nan_or_inf (TruncatedNormal.ret s') = true.
Proof.
  intros Hbad. induction fuel as [| fuel IH]; intros s Hret Hprinted.
  - exists s. cbn [TruncatedNormal.sample_loop]. repeat split; try assumption.
    rewrite Z.add_0_r. reflexivity.
  - cbn [TruncatedNormal.sample_loop]. rewrite Hret.
    destruct (IH (TruncatedNormal.loop_body self rand s)) as (s' & Hrun & Hcount & Hp & Hr).
    + exact Hbad.
    + unfold TruncatedNormal.loop_body.
      cbn [TruncatedNormal.printed TruncatedNormal.attempt_count].
      rewrite Hprinted.
      destruct (Z.eqb_spec (TruncatedNormal.attempt_count s + 1) 10000) as [He | Hne].
      * rewrite He.
        destruct (Z.leb_spec 10000 (TruncatedNormal.attempt_count s)); [lia |].
        reflexivity.
      * destruct (Z.leb_spec 10000 (TruncatedNormal.attempt_count s)),
                 (Z.leb_spec 10000 (TruncatedNormal.attempt_count s + 1));
          try reflexivity; lia.
    + exists s'. repeat split; try assumption.
      rewrite Hcount. unfold TruncatedNormal.loop_body.
      cbn [TruncatedNormal.attempt_count]. lia.
Qed.

Ltac real_cases :=
  repeat match goal with
    | |- context [Rlt_dec ?a ?b] => destruct (Rlt_dec a b); try lra
    | |- context [Rle_dec ?a ?b] => destruct (Rle_dec a b); try lra
    | |- context [Req_dec_T ?a ?b] => destruct (Req_dec_T a b); try lra
    end.

Lemma ediv_NInf_pos b : 0 < b -> ediv NInf (Fin b) = NInf.
Proof. intros Hb. simpl. real_cases. reflexivity. Qed.

Lemma emul_NInf_pos b : 0 < b -> emul NInf (Fin b) = NInf.
Proof. intros Hb. simpl. unfold inf_times. real_cases. reflexivity. Qed.

Lemma emul_pos_NInf b : 0 < b -> emul (Fin b) NInf = NInf.
Proof. intros Hb. simpl. unfold inf_times. real_cases. reflexivity. Qed.

Lemma lower_half_normal_cdf_alpha :
  TruncatedNormal._standard_normal_cdf_alpha lower_half_normal = Fin 0.
Proof.
  pose proof sqrt2_pos as H2.
  unfold lower_half_normal, TruncatedNormal.__init__.
  cbn [TruncatedNormal._standard_normal_cdf_alpha].
  unfold Normal.cdf, Normal.__init__.
  cbn [Normal._mean Normal._stddev].
  change (esub NInf (Fin 0)) with NInf.
  rewrite (ediv_NInf_pos 1) by lra.
  change (esub NInf (Fin 0)) with NInf.
  rewrite reciprocal_Fin, emul_NInf_pos, ediv_NInf_pos by lra.
  cbn [torch_erf]. rewrite eadd_Fin, emul_Fin. f_equal. lra.
Qed.

Lemma lower_half_normal_cdf_beta :
  TruncatedNormal._standard_normal_cdf_beta lower_half_normal
  = Fin (Phi ((0 - 0) / 1)).
Proof.
  unfold lower_half_normal, TruncatedNormal.__init__.
  cbn [TruncatedNormal._standard_normal_cdf_beta].
  rewrite esub_Fin, ediv_Fin by lra. fold standard_normal.
  apply standard_normal_cdf.
Qed.

Lemma lower_half_normal_attempt (r : R) :
  TruncatedNormal.sample_attempt lower_half_normal (Fin r)
  = eadd
      (emul (Normal.icdf standard_normal (Fin (0 + r * (Phi ((0 - 0) / 1) - 0))))
         (Fin 1))
      (Fin 0).
Proof.
  unfold TruncatedNormal.sample_attempt.
  rewrite lower_half_normal_cdf_alpha, lower_half_normal_cdf_beta.
  reflexivity.
Qed.

Lemma lower_half_normal_attempt_at_0 :
  TruncatedNormal.sample_attempt lower_half_normal (Fin 0) = NInf.
Proof.
  pose proof sqrt2_pos as H2.
  rewrite lower_half_normal_attempt.
  unfold Normal.icdf, standard_normal, Normal.__init__.
  cbn [Normal._mean Normal._stddev].
  rewrite emul_Fin, esub_Fin.
  replace (2 * (0 + 0 * (Phi ((0 - 0) / 1) - 0)) - 1) with (-1) by lra.
  rewrite torch_erfinv_minus_one.
  rewrite emul_pos_NInf, emul_NInf_pos by lra.
  change (eadd (Fin 0) NInf) with NInf.
  rewrite emul_NInf_pos by lra. reflexivity.
Qed.

Lemma lower_half_normal_attempt_inside (r : R) :
  0 < r < 1 ->
  has_nan_or_inf (TruncatedNormal.sample_attempt lower_half_normal (Fin r)) = false.
Proof.
  intros Hr. rewrite lower_half_normal_attempt.
  pose proof (Phi_bounds ((0 - 0) / 1)) as Hb.
  rewrite standard_normal_icdf by nra.
  reflexivity.
Qed.

(** C1. [sample] reads the generator once, before its loop, and every
    retry recomputes the result from that same draw.  On the normal
    truncated to (-inf, 0] with a first draw of 0 the result is -inf: the
    loop is still running after any number of turns, the generator has
    been read exactly once, and the warning is printed once, from turn
    10000 on; any draw in (0, 1) would have given a finite result. *)
Theorem truncated_normal_sample_never_redraws :
  forall rng : RNG, draws rng (pos rng) = Fin 0 ->
    (forall fuel : nat, exists s,
       TruncatedNormal.sample fuel lower_half_normal rng
       = (TruncatedNormal.Running s,
          {| draws := draws rng; pos := S (pos rng) |}) /\
       TruncatedNormal.attempt_count s = Z.of_nat fuel /\
       TruncatedNormal.printed s
       = (if (10000 <=? Z.of_nat fuel)%Z
          then [TruncatedNormal.tail_warning] else [])) /\
    (forall r : R, 0 < r < 1 ->
       has_nan_or_inf
         (TruncatedNormal.sample_attempt lower_half_normal (Fin r)) = false).
Proof.
  intros rng Hdraw. split; [| exact lower_half_normal_attempt_inside].
  intros fuel. unfold TruncatedNormal.sample, uniform_. rewrite Hdraw.
  destruct (sample_loop_stuck lower_half_normal (Fin 0)) with
    (fuel := fuel)
    (s := {| TruncatedNormal.attempt_count := 0%Z;
             TruncatedNormal.ret := NaN;
             TruncatedNormal.printed := [] |})
    as (s' & Hrun & Hcount & Hp & _).
  - rewrite lower_half_normal_attempt_at_0. reflexivity.
  - reflexivity.
  - reflexivity.
  - exists s'. rewrite Hrun. cbn [TruncatedNormal.attempt_count] in Hcount.
    rewrite Z.add_0_l in Hcount. rewrite Hp, Hcount. repeat split.
Qed.

End TruncatedNormalProperties.

(** ** Empirical: sums and normalization *)

Lemma Rsum_app l1 l2 : Rsum (l1 ++ l2) = Rsum l1 + Rsum l2.
Proof. induction l1 as [| a l1 IH]; simpl; [lra | rewrite IH; lra]. Qed.

Lemma Rsum_permutation l1 l2 : Permutation l1 l2 -> Rsum l1 = Rsum l2.
Proof. induction 1; simpl; lra. Qed.

Lemma Rsum_exp_pos l : l <> [] -> 0 < Rsum (map exp l).
Proof.
  induction l as [| a l IH]; [congruence |]. intros _. simpl.
  pose proof (exp_pos a).
  destruct l as [| b l]; [simpl; lra |].
  assert (0 < Rsum (map exp (b :: l))) by (apply IH; discriminate). lra.
Qed.

Lemma Rsum_exp_shift c l :
  Rsum (map (fun x => exp (x - c)) l) = Rsum (map exp l) / exp c.
Proof.
  pose proof (exp_pos c) as Hc.
  induction l as [| a l IH]; simpl.
  - unfold Rdiv. lra.
  - rewrite IH. unfold Rminus. rewrite exp_plus, exp_Ropp. field. lra.
Qed.

Lemma normalize_sums_to_1 (log_weights : list R) :
  log_weights <> [] -> Rsum (Empirical.normalize log_weights) = 1.
Proof.
  intros Hne. unfold Empirical.normalize, logsumexp.
  rewrite Rsum_exp_shift.
  pose proof (Rsum_exp_pos log_weights Hne) as Hpos.
  rewrite exp_ln by exact Hpos. field. lra.
Qed.

Lemma normalize_length lw : List.length (Empirical.normalize lw) = List.length lw.
Proof. unfold Empirical.normalize. apply length_map. Qed.

(** ** The insertion sort meets the contract of [torch.sort] *)

Lemma insert_ordered_perm descending p l :
  Permutation (insert_ordered descending p l) (p :: l).
Proof.
  induction l as [| q l IH]; simpl; [reflexivity |].
  destruct (goes_after descending (fst p) (fst q)); [| reflexivity].
  rewrite IH. apply perm_swap.
Qed.

Lemma insertion_perm descending l :
  Permutation (fold_right (insert_ordered descending) [] l) l.
Proof.
  induction l as [| p l IH]; simpl; [reflexivity |].
  rewrite insert_ordered_perm. now constructor.
Qed.

Lemma insert_ordered_sorted descending p l :
  StronglySorted (fun a b => sort_order descending (fst a) (fst b)) l ->
  StronglySorted (fun a b => sort_order descending (fst a) (fst b))
    (insert_ordered descending p l).
Proof.
  induction 1 as [| q l Hs IH Hall]; simpl.
  - repeat constructor.
  - destruct descending; unfold sort_order, goes_after in *.
    + destruct (Rle_dec (fst p) (fst q)) as [Hle | Hgt].
      * constructor; [exact IH |].
        rewrite Forall_forall in *. intros x Hx.
        apply (Permutation_in _ (insert_ordered_perm true p l)) in Hx.
        destruct Hx as [<- | Hx]; [lra | now apply Hall].
      * constructor; [now constructor |].
        constructor; [lra |].
        rewrite Forall_forall in *. intros x Hx. specialize (Hall x Hx). lra.
    + destruct (Rle_dec (fst q) (fst p)) as [Hle | Hgt].
      * constructor; [exact IH |].
        rewrite Forall_forall in *. intros x Hx.
        apply (Permutation_in _ (insert_ordered_perm false p l)) in Hx.
        destruct Hx as [<- | Hx]; [lra | now apply Hall].
      * constructor; [now constructor |].
        constructor; [lra |].
        rewrite Forall_forall in *. intros x Hx. specialize (Hall x Hx). lra.
Qed.

Lemma insertion_sorted descending l :
  StronglySorted (fun a b => sort_order descending (fst a) (fst b))
    (fold_right (insert_ordered descending) [] l).
Proof.
  induction l as [| p l IH]; simpl; [constructor |].
  now apply insert_ordered_sorted.
Qed.

Lemma StronglySorted_map_fst descending (l : list (R * nat)) :
  StronglySorted (fun a b => sort_order descending (fst a) (fst b)) l ->
  StronglySorted (sort_order descending) (map fst l).
Proof.
  induction 1 as [| q l Hs IH Hall]; simpl; constructor; [exact IH |].
  rewrite Forall_forall in *. intros x Hx.
  apply in_map_iff in Hx. destruct Hx as (y & <- & Hy). now apply Hall.
Qed.

Lemma combine_seq_nth (ws : list R) (start : nat) w i :
  In (w, i) (combine ws (seq start (List.length ws))) ->
  (start <= i)%nat /\ nth (i - start) ws 0 = w.
Proof.
  revert start. induction ws as [| a ws IH]; intros start; simpl; [tauto |].
  intros [Heq | Hin].
  - injection Heq as -> ->. rewrite Nat.sub_diag. split; [lia | reflexivity].
  - apply IH in Hin. destruct Hin as [Hle Hnth]. split; [lia |].
    replace (i - start)%nat with (S (i - S start)) by lia. exact Hnth.
Qed.

Lemma map_snd_combine_seq (ws : list R) (start : nat) :
  map snd (combine ws (seq start (List.length ws))) = seq start (List.length ws).
Proof.
  revert start. induction ws as [| a ws IH]; intros start; simpl; [reflexivity |].
  now rewrite IH.
Qed.

Lemma index_sort_contract : sort_contract index_sort.
Proof.
  intros ws descending. unfold index_sort. cbn [fst snd].
  set (ps := fold_right (insert_ordered descending) []
               (combine ws (seq 0 (List.length ws)))).
  assert (Hperm : Permutation ps (combine ws (seq 0 (List.length ws))))
    by apply insertion_perm.
  split; [| split].
  - rewrite <- (map_snd_combine_seq ws 0). now apply Permutation_map.
  - rewrite map_map. apply map_ext_in. intros [w i] Hin. cbn [fst snd].
    apply (Permutation_in _ Hperm) in Hin.
    apply combine_seq_nth in Hin. destruct Hin as [_ Hnth].
    now rewrite Nat.sub_0_r in Hnth.
  - apply StronglySorted_map_fst. apply insertion_sorted.
Qed.

Lemma Req_bool_spec a b : Req_bool a b = true <-> a = b.
Proof. unfold Req_bool. destruct (Req_dec_T a b); split; congruence. Qed.

(** ** Empirical: the stored entries *)

Section Gather.

Context {A B : Type}.

Lemma gather_map (f : A -> B) (d : list A) (indices : list nat) :
  Empirical.gather B (map f d) indices
  = option_map (map f) (Empirical.gather A d indices).
Proof.
  induction indices as [| i rest IH]; simpl; [reflexivity |].
  rewrite IH, nth_error_map.
  destruct (nth_error d i); simpl; [| reflexivity].
  destruct (Empirical.gather A d rest); reflexivity.
Qed.

Lemma gather_total (d : list A) (indices : list nat) :
  (forall i, In i indices -> (i < List.length d)%nat) ->
  exists l, Empirical.gather A d indices = Some l.
Proof.
  induction indices as [| i rest IH]; intros Hin; simpl.
  - now exists [].
  - destruct IH as [l Hl]; [intros j Hj; apply Hin; now right |].
    rewrite Hl.
    destruct (nth_error d i) as [a |] eqn:Hi.
    + now exists (a :: l).
    + apply nth_error_None in Hi.
      specialize (Hin i (or_introl eq_refl)). lia.
Qed.

Lemma gather_nth_error (d : list A) (indices : list nat) (l : list A) :
  Empirical.gather A d indices = Some l ->
  map Some l = map (nth_error d) indices.
Proof.
  revert l. induction indices as [| i rest IH]; intros l; simpl.
  - intros [= <-]. reflexivity.
  - destruct (nth_error d i) as [a |]; [| discriminate].
    destruct (Empirical.gather A d rest) as [l' |]; [| discriminate].
    intros [= <-]. simpl. now rewrite (IH l' eq_refl).
Qed.

Lemma nth_error_seq_all (d : list A) :
  map (nth_error d) (seq 0 (List.length d)) = map Some d.
Proof.
  induction d as [| a d IH]; simpl; [reflexivity |].
  f_equal. rewrite <- seq_shift, map_map. exact IH.
Qed.

Lemma gather_permutation (d : list A) (indices : list nat) (l : list A) :
  Permutation indices (seq 0 (List.length d)) ->
  Empirical.gather A d indices = Some l ->
  Permutation l d.
Proof.
  intros Hperm Hg. apply gather_nth_error in Hg.
  apply (Permutation_map (nth_error d)) in Hperm.
  rewrite nth_error_seq_all, <- Hg in Hperm.
  apply Permutation_sym, Permutation_map_inv in Hperm.
  destruct Hperm as (l' & Heq & Hp).
  assert (l' = d) as ->; [| exact Hp].
  clear -Heq. revert l' Heq.
  induction d as [| a d IH]; intros [| b l']; simpl; intros H;
    try discriminate; [reflexivity |].
  injection H as -> H. f_equal. now apply IH.
Qed.

End Gather.

Lemma gather_weights {V : Type} (d : list (V * R)) (indices : list nat) l :
  Empirical.gather (V * R) d indices = Some l ->
  map (fun i => nth i (map snd d) 0) indices = map snd l.
Proof.
  revert l. induction indices as [| i rest IH]; intros l; simpl.
  - intros [= <-]. reflexivity.
  - destruct (nth_error d i) as [a |] eqn:Hi; [| discriminate].
    destruct (Empirical.gather (V * R) d rest) as [l' |]; [| discriminate].
    intros [= <-]. simpl. rewrite (IH l' eq_refl). f_equal.
    apply nth_error_nth. rewrite nth_error_map, Hi. reflexivity.
Qed.

Lemma combine_fst_snd {A B : Type} (l : list (A * B)) :
  combine (map fst l) (map snd l) = l.
Proof.
  induction l as [| [a b] l IH]; simpl; [reflexivity | now rewrite IH].
Qed.

Lemma StronglySorted_descending (l : list R) :
  StronglySorted Rge l ->
  forall i j, (i < j < List.length l)%nat -> nth j l 0 <= nth i l 0.
Proof.
  induction 1 as [| a l Hs IH Hall]; intros i j Hij; simpl in Hij; [lia |].
  destruct j as [| j]; [lia |]. simpl.
  destruct i as [| i].
  - rewrite Forall_forall in Hall. apply Rge_le, Hall, nth_In. lia.
  - apply IH. lia.
Qed.

Section EmpiricalStore.

Variable V : Type.
Variable torch_sort : list R -> bool -> list R * list nat.
Hypothesis torch_sort_ok : sort_contract torch_sort.

(** What [__init__] stores from a non-empty [distribution]. *)
Lemma store_spec (d : Empirical.dict V) :
  d <> [] ->
  exists e,
    Empirical.store V torch_sort d = Some e /\
    Permutation (combine (Empirical.values e) (Empirical.weights e)) d /\
    StronglySorted Rge (Empirical.weights e) /\
    Empirical.length e = List.length d /\
    List.length (Empirical.values e) = List.length d /\
    List.length (Empirical.weights e) = List.length d /\
    Empirical._mean e = None /\
    Empirical._mean_unweighted e = None /\
    Empirical._variance e = None /\
    Empirical._variance_unweighted e = None.
Proof.
  intros Hne. unfold Empirical.store.
  destruct (map snd d) as [| w0 ws0] eqn:Hws.
  { destruct d; [congruence | discriminate]. }
  rewrite <- Hws. clear w0 ws0 Hws.
  destruct (torch_sort_ok (map snd d) true) as (Hperm & Hsorted & Hdesc).
  unfold sort_order in Hdesc.
  destruct (torch_sort (map snd d) true) as [sorted indices]. cbn [fst snd] in *.
  rewrite length_map in Hperm.
  destruct (gather_total d indices) as [l Hl].
  { intros i Hi. apply (Permutation_in _ Hperm) in Hi.
    apply in_seq in Hi. lia. }
  rewrite gather_map, Hl. cbn [option_map].
  eexists. split; [reflexivity |].
  cbn [Empirical.values Empirical.weights Empirical.length Empirical._mean
       Empirical._mean_unweighted Empirical._variance Empirical._variance_unweighted].
  pose proof (gather_permutation d indices l Hperm Hl) as Hpl.
  rewrite (gather_weights d indices l Hl) in Hsorted. subst sorted.
  rewrite combine_fst_snd, !length_map.
  rewrite (Permutation_length Hpl).
  repeat split; try reflexivity; assumption.
Qed.

End EmpiricalStore.

(** ** Empirical: the aggregation into [distribution] *)

Section EmpiricalAggregate.

Variable V : Type.
Variable torch_equal : V -> V -> bool.
Variable key_same : V -> V -> bool.

Implicit Types (d : Empirical.dict V) (k v : V) (w x : R).

Local Abbreviation iadd := (Empirical.iadd V key_same).
Local Abbreviation setitem := (Empirical.setitem V key_same).
Local Abbreviation scan := (Empirical.scan V torch_equal).
Local Abbreviation plain_loop := (Empirical.plain_loop V key_same).
Local Abbreviation combine_loop := (Empirical.combine_loop V torch_equal key_same).
Local Abbreviation aggregate := (Empirical.aggregate V torch_equal key_same).

(** *** Without [combine_duplicates] *)

Lemma iadd_sum d k w : Rsum (map snd (iadd d k w)) = Rsum (map snd d) + w.
Proof.
  induction d as [| [k' x'] d IH]; simpl; [lra |].
  destruct (key_same k' k); simpl; [lra | rewrite IH; lra].
Qed.

Lemma iadd_nonempty d k w : iadd d k w <> [].
Proof. destruct d as [| [k' x'] d]; simpl; [| destruct (key_same k' k)]; discriminate. Qed.

Lemma plain_loop_spec vs : forall ws d,
  List.length vs = List.length ws ->
  exists d',
    plain_loop vs ws d = Some d' /\
    Rsum (map snd d') = Rsum (map snd d) + Rsum ws /\
    (vs <> [] \/ d <> [] -> d' <> []).
Proof.
  induction vs as [| v vs IH]; intros [| w ws] d Hlen; simpl in Hlen; try lia.
  - exists d. simpl. repeat split; [lra | intros [H | H]; congruence].
  - simpl. destruct (IH ws (iadd d v w)) as (d' & Hrun & Hsum & Hne); [lia |].
    exists d'. split; [exact Hrun |]. split.
    + rewrite Hsum, iadd_sum. lra.
    + intros _. apply Hne. right. apply iadd_nonempty.
Qed.

(** *** With [combine_duplicates] *)

Lemma scan_spec d v w found :
  scan d v w found
  = (bump torch_equal v w d,
     found || existsb (fun p => torch_equal (fst p) v) d).
Proof.
  revert found. induction d as [| [k x] d IH]; intros found; simpl.
  - now rewrite orb_false_r.
  - destruct (torch_equal k v); rewrite IH; simpl; f_equal.
    now rewrite orb_true_r.
Qed.

Lemma bump_keys v w d : map fst (bump torch_equal v w d) = map fst d.
Proof.
  unfold bump. rewrite map_map. apply map_ext. intros [k x]. simpl.
  now destruct (torch_equal k v).
Qed.

Lemma weight_in_app d1 d2 k :
  weight_in torch_equal (d1 ++ d2) k
  = weight_in torch_equal d1 k + weight_in torch_equal d2 k.
Proof. unfold weight_in. now rewrite filter_app, map_app, Rsum_app. Qed.

Lemma setitem_nonempty d k x : setitem d k x <> [].
Proof. destruct d as [| [k' x'] d]; simpl; [| destruct (key_same k' k)]; discriminate. Qed.

Lemma bump_nonempty v w d : d <> [] -> bump torch_equal v w d <> [].
Proof. destruct d; [congruence | discriminate]. Qed.

(** The loop ends on every input that has a weight for each value, and
    what it builds from a non-empty input is not empty. *)
Lemma combine_loop_total vs : forall ws d,
  List.length vs = List.length ws ->
  exists d',
    combine_loop vs ws d = Some d' /\ (vs <> [] \/ d <> [] -> d' <> []).
Proof.
  induction vs as [| v vs IH]; intros [| w ws] d Hlen; simpl in Hlen; try lia.
  - exists d. split; [reflexivity |]. intros [H | H]; congruence.
  - cbn [Empirical.combine_loop]. rewrite scan_spec. cbn [orb].
    destruct (IH ws (if existsb (fun p => torch_equal (fst p) v) d
                     then bump torch_equal v w d
                     else setitem (bump torch_equal v w d) v w))
      as (d' & Hrun & Hne); [lia |].
    exists d'. split; [exact Hrun |]. intros _. apply Hne. right.
    destruct (existsb (fun p => torch_equal (fst p) v) d) eqn:Hex.
    + apply bump_nonempty. destruct d; [discriminate | discriminate].
    + apply setitem_nonempty.
Qed.

Lemma input_log_weights_nonempty (values : list V) log_weights :
  values <> [] -> one_weight_per_value values log_weights ->
  input_log_weights values log_weights <> [].
Proof.
  unfold one_weight_per_value. intros Hne Hlen Hnil. rewrite Hnil in Hlen.
  destruct values; [congruence | discriminate].
Qed.

(** On a non-empty input [aggregate] is one of the two loops, run on the
    normalized weights from the empty dictionary. *)
Lemma aggregate_nonempty (values : list V) log_weights combine_duplicates :
  values <> [] ->
  aggregate values log_weights combine_duplicates
  = if combine_duplicates
    then combine_loop values
           (Empirical.normalize (input_log_weights values log_weights)) []
    else plain_loop values
           (Empirical.normalize (input_log_weights values log_weights)) [].
Proof.
  intros Hne. unfold Empirical.aggregate, input_log_weights.
  destruct log_weights as [lw |]; [reflexivity |].
  destruct values as [| v values]; [congruence |]. reflexivity.
Qed.

Lemma aggregate_total (values : list V) log_weights combine_duplicates :
  values <> [] -> one_weight_per_value values log_weights ->
  exists d,
    aggregate values log_weights combine_duplicates = Some d /\ d <> [].
Proof.
  intros Hne Hlen. rewrite aggregate_nonempty by exact Hne.
  unfold one_weight_per_value in Hlen.
  destruct combine_duplicates.
  - destruct (combine_loop_total values
                (Empirical.normalize (input_log_weights values log_weights)) [])
      as (d & Hrun & Hd); [now rewrite normalize_length |].
    exists d. split; [exact Hrun |]. apply Hd. now left.
  - destruct (plain_loop_spec values
                (Empirical.normalize (input_log_weights values log_weights)) [])
      as (d & Hrun & _ & Hd); [now rewrite normalize_length |].
    exists d. split; [exact Hrun |]. apply Hd. now left.
Qed.

Hypothesis torch_equal_spec : forall a b, torch_equal a b = true <-> a = b.
Hypothesis key_same_spec : forall a b, key_same a b = true -> a = b.

Lemma torch_equal_refl a : torch_equal a a = true.
Proof. now apply torch_equal_spec. Qed.

Lemma torch_equal_false a b : torch_equal a b = false <-> a <> b.
Proof.
  destruct (torch_equal a b) eqn:H.
  - apply torch_equal_spec in H. split; [discriminate | congruence].
  - split; [| reflexivity]. intros _ Heq. apply torch_equal_spec in Heq. congruence.
Qed.

Lemma existsb_key d v :
  existsb (fun p => torch_equal (fst p) v) d = true <-> In v (map fst d).
Proof.
  rewrite existsb_exists, in_map_iff. split.
  - intros (p & Hin & Heq). apply torch_equal_spec in Heq. now exists p.
  - intros (p & Heq & Hin). exists p. split; [exact Hin |]. now apply torch_equal_spec.
Qed.

Lemma bump_absent v w d : ~ In v (map fst d) -> bump torch_equal v w d = d.
Proof.
  intros Hnin. unfold bump. rewrite <- (map_id d) at 2.
  apply map_ext_in. intros [k x] Hin. simpl.
  destruct (torch_equal k v) eqn:He; [| reflexivity].
  apply torch_equal_spec in He. subst k.
  exfalso. apply Hnin. apply in_map_iff. now exists (v, x).
Qed.

Lemma weight_in_absent d k : ~ In k (map fst d) -> weight_in torch_equal d k = 0.
Proof.
  intros Hnin. unfold weight_in.
  induction d as [| [k' x] d IH]; simpl; [reflexivity |].
  simpl in Hnin. destruct (torch_equal k' k) eqn:He.
  - apply torch_equal_spec in He. tauto.
  - apply IH. tauto.
Qed.

Lemma weight_in_entry d k x :
  NoDup (map fst d) -> In (k, x) d -> weight_in torch_equal d k = x.
Proof.
  induction d as [| [k' x'] d IH]; simpl; intros Hnd Hin; [tauto |].
  inversion Hnd as [| ? ? Hnin Hnd']; subst.
  change (weight_in torch_equal ((k', x') :: d) k)
    with (weight_in torch_equal ([(k', x')] ++ d) k).
  rewrite weight_in_app. destruct Hin as [[= -> ->] | Hin].
  - rewrite (weight_in_absent d k Hnin). unfold weight_in. simpl.
    rewrite torch_equal_refl. simpl. lra.
  - rewrite (IH Hnd' Hin). unfold weight_in. simpl.
    destruct (torch_equal k' k) eqn:He; [| simpl; lra].
    apply torch_equal_spec in He. subst k'.
    exfalso. apply Hnin. apply in_map_iff. now exists (k, x).
Qed.

Lemma bump_weight d v w k :
  NoDup (map fst d) -> In v (map fst d) ->
  weight_in torch_equal (bump torch_equal v w d) k
  = weight_in torch_equal d k + (if torch_equal v k then w else 0).
Proof.
  induction d as [| [k' x'] d IH]; simpl; intros Hnd Hin; [tauto |].
  inversion Hnd as [| ? ? Hnin Hnd']; subst.
  change ((k', x') :: d) with ([(k', x')] ++ d).
  destruct (torch_equal k' v) eqn:He.
  - apply torch_equal_spec in He. subst k'.
    rewrite (bump_absent v w d Hnin).
    change ((v, x' + w) :: d) with ([(v, x' + w)] ++ d).
    rewrite !weight_in_app. unfold weight_in. simpl.
    destruct (torch_equal v k); simpl; lra.
  - destruct Hin as [-> | Hin]; [rewrite torch_equal_refl in He; discriminate |].
    change ((k', x') :: bump torch_equal v w d)
      with ([(k', x')] ++ bump torch_equal v w d).
    rewrite !weight_in_app, (IH Hnd' Hin). lra.
Qed.

Lemma bump_sum d v w :
  NoDup (map fst d) -> In v (map fst d) ->
  Rsum (map snd (bump torch_equal v w d)) = Rsum (map snd d) + w.
Proof.
  induction d as [| [k' x'] d IH]; simpl; intros Hnd Hin; [tauto |].
  inversion Hnd as [| ? ? Hnin Hnd']; subst.
  destruct (torch_equal k' v) eqn:He.
  - apply torch_equal_spec in He. subst k'.
    rewrite (bump_absent v w d Hnin). simpl. lra.
  - destruct Hin as [-> | Hin]; [rewrite torch_equal_refl in He; discriminate |].
    simpl. rewrite (IH Hnd' Hin). lra.
Qed.

Lemma setitem_fresh d k x :
  ~ In k (map fst d) -> setitem d k x = d ++ [(k, x)].
Proof.
  induction d as [| [k' x'] d IH]; simpl; intros Hnin; [reflexivity |].
  destruct (key_same k' k) eqn:He.
  - apply key_same_spec in He. tauto.
  - rewrite IH by tauto. reflexivity.
Qed.

(** One turn of the loop: the weight joins the entry of an equal key, or
    the value enters as a new key, at the end. *)
Lemma combine_step d v w :
  (if existsb (fun p => torch_equal (fst p) v) d
   then bump torch_equal v w d
   else setitem (bump torch_equal v w d) v w)
  = if existsb (fun p => torch_equal (fst p) v) d
    then bump torch_equal v w d
    else d ++ [(v, w)].
Proof.
  destruct (existsb (fun p => torch_equal (fst p) v) d) eqn:Hex; [reflexivity |].
  assert (Hnin : ~ In v (map fst d)).
  { intros Hin. apply existsb_key in Hin. congruence. }
  rewrite (bump_absent v w d Hnin). now apply setitem_fresh.
Qed.

Lemma combine_loop_spec vs : forall ws d,
  List.length vs = List.length ws ->
  NoDup (map fst d) ->
  exists d',
    combine_loop vs ws d = Some d' /\
    NoDup (map fst d') /\
    (forall k, In k (map fst d') <-> In k (map fst d) \/ In k vs) /\
    (forall k, weight_in torch_equal d' k
               = weight_in torch_equal d k + total_weight_of torch_equal k vs ws) /\
    Rsum (map snd d') = Rsum (map snd d) + Rsum ws.
Proof.
  induction vs as [| v vs IH]; intros [| w ws] d Hlen Hnd; simpl in Hlen; try lia.
  - exists d. simpl. repeat split; try tauto; try lra.
    intros k. lra.
  - cbn [Empirical.combine_loop]. rewrite scan_spec. cbn [orb].
    rewrite combine_step.
    destruct (existsb (fun p => torch_equal (fst p) v) d) eqn:Hex.
    + assert (Hin : In v (map fst d)) by now apply existsb_key.
      destruct (IH ws (bump torch_equal v w d)) as (d' & Hrun & Hnd' & Hkeys & Hw & Hsum);
        [lia | now rewrite bump_keys |].
      exists d'. split; [exact Hrun |]. split; [exact Hnd' |].
      rewrite bump_keys in Hkeys. split; [| split].
      * intros k. rewrite Hkeys. simpl. split; [tauto |].
        intros [H | [<- | H]]; tauto.
      * intros k. rewrite Hw, bump_weight by assumption. simpl. lra.
      * rewrite Hsum, bump_sum by assumption. simpl. lra.
    + assert (Hnin : ~ In v (map fst d)).
      { intros Hin. apply existsb_key in Hin. congruence. }
      destruct (IH ws (d ++ [(v, w)])) as (d' & Hrun & Hnd' & Hkeys & Hw & Hsum).
      * lia.
      * rewrite map_app. simpl. apply NoDup_app; [exact Hnd | repeat constructor; tauto |].
        intros a Ha [<- | []]. tauto.
      * exists d'. split; [exact Hrun |]. split; [exact Hnd' |]. split; [| split].
        -- intros k. rewrite Hkeys, map_app, in_app_iff. simpl. tauto.
        -- intros k. rewrite Hw, weight_in_app. unfold weight_in at 2. simpl.
           destruct (torch_equal v k); simpl; lra.
        -- rewrite Hsum, map_app, Rsum_app. simpl. lra.
Qed.

(** The dictionary built from a well-formed input: its weights sum to 1;
    with [combine_duplicates] its keys are the distinct values of the
    input, each with the total weight the input gives to it. *)
Lemma aggregate_spec (values : list V) log_weights combine_duplicates :
  values <> [] -> one_weight_per_value values log_weights ->
  exists d,
    aggregate values log_weights combine_duplicates = Some d /\
    d <> [] /\
    Rsum (map snd d) = 1 /\
    (combine_duplicates = true ->
     NoDup (map fst d) /\
     (forall k, In k (map fst d) <-> In k values) /\
     (forall k x, In (k, x) d ->
        x = total_weight_of torch_equal k values
              (Empirical.normalize (input_log_weights values log_weights)))).
Proof.
  intros Hne Hlen.
  pose proof (input_log_weights_nonempty values log_weights Hne Hlen) as Hlw.
  pose proof (normalize_sums_to_1 _ Hlw) as Hone.
  destruct (aggregate_total values log_weights combine_duplicates Hne Hlen)
    as (d & Hagg & Hd).
  exists d. split; [exact Hagg |]. split; [exact Hd |].
  rewrite aggregate_nonempty in Hagg by exact Hne.
  unfold one_weight_per_value in Hlen.
  destruct combine_duplicates.
  - destruct (combine_loop_spec values
                (Empirical.normalize (input_log_weights values log_weights)) [])
      as (d' & Hrun & Hnd & Hkeys & Hw & Hsum);
      [now rewrite normalize_length | constructor |].
    rewrite Hrun in Hagg. injection Hagg as ->.
    split; [rewrite Hsum, Hone; simpl; lra |].
    intros _. split; [exact Hnd |]. split.
    + intros k. rewrite Hkeys. simpl. tauto.
    + intros k x Hin. rewrite <- (weight_in_entry d k x Hnd Hin), Hw.
      unfold weight_in. simpl. lra.
  - destruct (plain_loop_spec values
                (Empirical.normalize (input_log_weights values log_weights)) [])
      as (d' & Hrun & Hsum & _); [now rewrite normalize_length |].
    rewrite Hrun in Hagg. injection Hagg as ->.
    split; [rewrite Hsum, Hone; simpl; lra | discriminate].
Qed.

End EmpiricalAggregate.

(** ** Empirical: the constructed object *)

Lemma map_fst_combine {A B : Type} (l1 : list A) (l2 : list B) :
  List.length l1 = List.length l2 -> map fst (combine l1 l2) = l1.
Proof.
  revert l2. induction l1 as [| a l1 IH]; intros [| b l2] Hlen; simpl in *;
    try lia; [reflexivity |].
  f_equal. apply IH. lia.
Qed.

Lemma map_snd_combine {A B : Type} (l1 : list A) (l2 : list B) :
  List.length l1 = List.length l2 -> map snd (combine l1 l2) = l2.
Proof.
  revert l2. induction l1 as [| a l1 IH]; intros [| b l2] Hlen; simpl in *;
    try lia; [reflexivity |].
  f_equal. apply IH. lia.
Qed.

Section EmpiricalInit.

Variable V : Type.
Variable torch_equal : V -> V -> bool.
Variable key_same : V -> V -> bool.
Variable torch_sort : list R -> bool -> list R * list nat.
Hypothesis torch_sort_ok : sort_contract torch_sort.

Local Abbreviation aggregate := (Empirical.aggregate V torch_equal key_same).
Local Abbreviation __init__ := (Empirical.__init__ V torch_equal key_same torch_sort).

(** [__init__] returns an object on every well-formed input; the object
    holds the entries of [distribution], reordered. *)
Lemma init_spec (values : list V) log_weights combine_duplicates :
  values <> [] -> one_weight_per_value values log_weights ->
  exists d e,
    aggregate values log_weights combine_duplicates = Some d /\
    __init__ values log_weights combine_duplicates = Some e /\
    d <> [] /\
    Permutation (combine (Empirical.values e) (Empirical.weights e)) d /\
    StronglySorted Rge (Empirical.weights e) /\
    Empirical.length e = List.length d /\
    List.length (Empirical.values e) = List.length d /\
    List.length (Empirical.weights e) = List.length d /\
    Empirical._mean e = None /\
    Empirical._mean_unweighted e = None /\
    Empirical._variance e = None /\
    Empirical._variance_unweighted e = None.
Proof.
  intros Hne Hlen.
  destruct (aggregate_total V torch_equal key_same values log_weights
              combine_duplicates Hne Hlen) as (d & Hagg & Hd).
  destruct (store_spec V torch_sort torch_sort_ok d Hd) as (e & Hstore & Hrest).
  exists d, e. unfold Empirical.__init__. rewrite Hagg.
  repeat split; try tauto.
Qed.

Lemma stored_values_permutation (d : Empirical.dict V) (e : Empirical.t V) :
  Permutation (combine (Empirical.values e) (Empirical.weights e)) d ->
  List.length (Empirical.values e) = List.length (Empirical.weights e) ->
  Permutation (Empirical.values e) (map fst d) /\
  Permutation (Empirical.weights e) (map snd d).
Proof.
  intros Hperm Hlen. split.
  - rewrite <- (map_fst_combine _ _ Hlen) at 1. now apply Permutation_map.
  - rewrite <- (map_snd_combine _ _ Hlen) at 1. now apply Permutation_map.
Qed.

End EmpiricalInit.

(** C9. The object that [__init__] builds stores the (value, weight) pairs
    of the aggregated dictionary by descending weight: the stored weights
    descend (weights[i] >= weights[j] for i < j), and the stored pairs
    (values[i], weights[i]) are, up to their order, the pairs of the
    dictionary, so each stored value stands at the position of its own
    weight. *)
Theorem empirical_sorted_by_descending_weight :
  forall (V : Type) (torch_equal key_same : V -> V -> bool)
         (torch_sort : list R -> bool -> list R * list nat),
    sort_contract torch_sort ->
    forall (values : list V) (log_weights : option (list R))
           (combine_duplicates : bool),
      values <> [] -> one_weight_per_value values log_weights ->
      exists d e,
        Empirical.aggregate V torch_equal key_same values log_weights
          combine_duplicates = Some d /\
        Empirical.__init__ V torch_equal key_same torch_sort values log_weights
          combine_duplicates = Some e /\
        (forall i j, (i < j < List.length (Empirical.weights e))%nat ->
           nth j (Empirical.weights e) 0 <= nth i (Empirical.weights e) 0) /\
        Permutation (combine (Empirical.values e) (Empirical.weights e)) d /\
        List.length (Empirical.values e) = List.length (Empirical.weights e) /\
        Empirical.length e = List.length (Empirical.values e).
Proof.
  intros V torch_equal key_same torch_sort Hsort values log_weights c Hne Hlen.
  destruct (init_spec V torch_equal key_same torch_sort Hsort values log_weights c
              Hne Hlen)
    as (d & e & Hagg & Hinit & _ & Hperm & Hdesc & Hl & Hlv & Hlw & _).
  exists d, e. repeat split; try assumption; try lia.
  now apply StronglySorted_descending.
Qed.

(** *** The input [1, 1, 2] *)

Lemma Req_bool_1_1 : Req_bool 1 1 = true.
Proof. now apply Req_bool_spec. Qed.

Lemma Req_bool_1_2 : Req_bool 1 2 = false.
Proof. unfold Req_bool. destruct (Req_dec_T 1 2); [lra | reflexivity]. Qed.

Lemma combine_loop_1_1_2 (a b c : R) :
  Empirical.combine_loop R Req_bool fresh_key [1; 1; 2] [a; b; c] []
  = Some [(1, a + b); (2, c)].
Proof.
  cbn [Empirical.combine_loop Empirical.scan Empirical.setitem].
  rewrite Req_bool_1_1.
  cbn [Empirical.combine_loop Empirical.scan Empirical.setitem].
  rewrite Req_bool_1_2.
  cbn [Empirical.combine_loop Empirical.scan Empirical.setitem fresh_key].
  reflexivity.
Qed.

Lemma normalize_quarter_quarter_half :
  Empirical.normalize [ln 0.25; ln 0.25; ln 0.5] = [0.25; 0.25; 0.5].
Proof.
  unfold Empirical.normalize, logsumexp. cbn [map Rsum fold_right].
  rewrite !exp_ln by lra.
  replace (0.25 + (0.25 + (0.5 + 0))) with 1 by lra.
  rewrite ln_1, !Rminus_0_r, !exp_ln by lra. reflexivity.
Qed.

Lemma normalize_uniform_3 :
  Empirical.normalize (input_log_weights [1; 1; 2] None) = [/ 3; / 3; / 3].
Proof.
  unfold input_log_weights.
  cbn [List.length repeat]. unfold Empirical.normalize, logsumexp.
  cbn [map Rsum fold_right].
  replace (INR 3) with 3 by (simpl; lra).
  rewrite exp_Ropp, exp_ln by lra.
  replace (/ 3 + (/ 3 + (/ 3 + 0))) with 1 by lra.
  rewrite ln_1, !Rminus_0_r, exp_Ropp, exp_ln by lra. reflexivity.
Qed.

(** C2. With combine_duplicates, the dictionary that [__init__] builds has
    one entry for each distinct value of the input, whose weight is the sum
    of the weights of all the positions that hold that value; the stored
    object holds the same entries.  On the values [1, 1, 2] with weights
    [0.25, 0.25, 0.5] there are exactly two entries, 1 with weight 0.5 and
    2 with weight 0.5. *)
Theorem empirical_combine_duplicates :
  (forall (V : Type) (torch_equal key_same : V -> V -> bool)
          (torch_sort : list R -> bool -> list R * list nat),
     (forall a b, torch_equal a b = true <-> a = b) ->
     (forall a b, key_same a b = true -> a = b) ->
     sort_contract torch_sort ->
     forall (values : list V) (log_weights : option (list R)),
       values <> [] -> one_weight_per_value values log_weights ->
       let weights := Empirical.normalize (input_log_weights values log_weights) in
       exists d e,
         Empirical.aggregate V torch_equal key_same values log_weights true
         = Some d /\
         Empirical.__init__ V torch_equal key_same torch_sort values log_weights true
         = Some e /\
         NoDup (map fst d) /\
         (forall k, In k (map fst d) <-> In k values) /\
         (forall k x, In (k, x) d ->
            x = total_weight_of torch_equal k values weights) /\
         NoDup (Empirical.values e) /\
         (forall k, In k (Empirical.values e) <-> In k values) /\
         (forall k x,
            In (k, x) (combine (Empirical.values e) (Empirical.weights e)) ->
            x = total_weight_of torch_equal k values weights)) /\
  (forall torch_sort : list R -> bool -> list R * list nat,
     sort_contract torch_sort ->
     Empirical.normalize [ln 0.25; ln 0.25; ln 0.5] = [0.25; 0.25; 0.5] /\
     Empirical.aggregate R Req_bool fresh_key [1; 1; 2]
       (Some [ln 0.25; ln 0.25; ln 0.5]) true
     = Some [(1, 0.25 + 0.25); (2, 0.5)] /\
     exists e,
       Empirical.__init__ R Req_bool fresh_key torch_sort [1; 1; 2]
         (Some [ln 0.25; ln 0.25; ln 0.5]) true = Some e /\
       Empirical.length e = 2%nat /\
       (forall k x,
          In (k, x) (combine (Empirical.values e) (Empirical.weights e)) <->
          (k = 1 /\ x = 0.5) \/ (k = 2 /\ x = 0.5))).
Proof.
  split.
  - intros V torch_equal key_same torch_sort Heq Hkey Hsort values log_weights
           Hne Hlen weights.
    destruct (init_spec V torch_equal key_same torch_sort Hsort values log_weights
                true Hne Hlen)
      as (d & e & Hagg & Hinit & _ & Hperm & _ & _ & Hlv & Hlw & _).
    destruct (aggregate_spec V torch_equal key_same Heq Hkey values log_weights
                true Hne Hlen) as (d' & Hagg' & _ & _ & Hcomb).
    rewrite Hagg in Hagg'. injection Hagg' as <-.
    destruct (Hcomb eq_refl) as (Hnd & Hkeys & Hw).
    destruct (stored_values_permutation V d e Hperm) as [Hpv _]; [lia |].
    exists d, e. repeat split; try assumption.
    + now apply Hkeys.
    + now apply Hkeys.
    + apply (Permutation_NoDup (Permutation_sym Hpv) Hnd).
    + intros Hin. apply Hkeys. now apply (Permutation_in _ Hpv).
    + intros Hin. apply (Permutation_in _ (Permutation_sym Hpv)). now apply Hkeys.
    + intros k x Hin. apply Hw. now apply (Permutation_in _ Hperm).
  - intros torch_sort Hsort.
    assert (Hagg : Empirical.aggregate R Req_bool fresh_key [1; 1; 2]
                     (Some [ln 0.25; ln 0.25; ln 0.5]) true
                   = Some [(1, 0.25 + 0.25); (2, 0.5)]).
    { unfold Empirical.aggregate.
      rewrite normalize_quarter_quarter_half. apply combine_loop_1_1_2. }
    split; [exact normalize_quarter_quarter_half |]. split; [exact Hagg |].
    destruct (store_spec R torch_sort Hsort [(1, 0.25 + 0.25); (2, 0.5)])
      as (e & Hstore & Hperm & _ & Hl & _); [discriminate |].
    exists e. unfold Empirical.__init__. rewrite Hagg.
    split; [exact Hstore |]. split; [exact Hl |].
    intros k x. split.
    + intros Hin. apply (Permutation_in _ Hperm) in Hin.
      destruct Hin as [[= <- <-] | [[= <- <-] | []]]; [left | right]; split; lra.
    + intros Hin. apply (Permutation_in _ (Permutation_sym Hperm)).
      destruct Hin as [[-> ->] | [-> ->]].
      * left. f_equal. lra.
      * right. left. reflexivity.
Qed.

(** ** Empirical: expectation and moments *)

Section IndexLoops.

Context {V : Type}.

(** The loop [for i in range(n)] over two lists read by index, started
    after a prefix already consumed. *)
Lemma index_loop2 (func : V -> R) (vs : list V) : forall ws pre_v pre_w acc,
  List.length pre_v = List.length pre_w ->
  List.length vs = List.length ws ->
  fold_left
    (fun ret i =>
       match ret, nth_error (pre_v ++ vs) i, nth_error (pre_w ++ ws) i with
       | Some ret, Some v, Some w => Some (ret + func v * w)
       | _, _, _ => None
       end)
    (seq (List.length pre_v) (List.length vs)) (Some acc)
  = Some (acc + Rsum (map (fun p => func (fst p) * snd p) (combine vs ws))).
Proof.
  induction vs as [| v vs IH]; intros [| w ws] pre_v pre_w acc Hpre Hlen;
    simpl in Hlen; try lia.
  - simpl. f_equal. lra.
  - cbn [List.length seq fold_left].
    rewrite !nth_error_app2 by lia. rewrite Nat.sub_diag.
    replace (List.length pre_v - List.length pre_w)%nat with 0%nat by lia.
    cbn [nth_error].
    replace (pre_v ++ v :: vs) with ((pre_v ++ [v]) ++ vs)
      by (rewrite <- app_assoc; reflexivity).
    replace (pre_w ++ w :: ws) with ((pre_w ++ [w]) ++ ws)
      by (rewrite <- app_assoc; reflexivity).
    replace (S (List.length pre_v)) with (List.length (pre_v ++ [v]))
      by (rewrite length_app; simpl; lia).
    rewrite IH.
    + unfold Rsum. simpl. f_equal. lra.
    + rewrite !length_app. simpl. lia.
    + lia.
Qed.

End IndexLoops.

Lemma index_loop1 (f : R -> R) (vs : list R) : forall pre acc,
  fold_left
    (fun total i =>
       match total, nth_error (pre ++ vs) i with
       | Some total, Some v => Some (total + f v)
       | _, _ => None
       end)
    (seq (List.length pre) (List.length vs)) (Some acc)
  = Some (acc + Rsum (map f vs)).
Proof.
  induction vs as [| v vs IH]; intros pre acc.
  - simpl. f_equal. lra.
  - cbn [List.length seq fold_left].
    rewrite nth_error_app2 by lia. rewrite Nat.sub_diag. cbn [nth_error].
    replace (pre ++ v :: vs) with ((pre ++ [v]) ++ vs)
      by (rewrite <- app_assoc; reflexivity).
    replace (S (List.length pre)) with (List.length (pre ++ [v]))
      by (rewrite length_app; simpl; lia).
    rewrite IH. unfold Rsum. simpl. f_equal. lra.
Qed.

Lemma expectation_spec {V : Type} (self : Empirical.t V) (func : V -> R) :
  well_formed self ->
  Empirical.expectation self func = Some (weighted_sum func self).
Proof.
  intros [Hl Hvw]. unfold Empirical.expectation, weighted_sum.
  rewrite Hl.
  pose proof (index_loop2 func (Empirical.values self) (Empirical.weights self)
                [] [] 0 eq_refl Hvw) as Hloop.
  cbn [app] in Hloop. change (List.length (@nil V)) with 0%nat in Hloop.
  rewrite Hloop. f_equal. lra.
Qed.

Lemma total_of_spec (self : Empirical.t R) (f : R -> R) :
  well_formed self ->
  Empirical.total_of self f = Some (Rsum (map f (Empirical.values self))).
Proof.
  intros [Hl Hvw]. unfold Empirical.total_of. rewrite Hl.
  pose proof (index_loop1 f (Empirical.values self) [] 0) as Hloop.
  cbn [app] in Hloop. change (List.length (@nil R)) with 0%nat in Hloop.
  rewrite Hloop. f_equal. lra.
Qed.

(** A filled cache is returned as it is: nothing is computed again. *)
Lemma mean_cached (self : Empirical.t R) (m : R) :
  Empirical._mean self = Some m -> Empirical.mean self = Some (m, self).
Proof. intros H. unfold Empirical.mean. now rewrite H. Qed.

Lemma variance_cached (self : Empirical.t R) (v : R) :
  Empirical._variance self = Some v -> Empirical.variance self = Some (v, self).
Proof. intros H. unfold Empirical.variance. now rewrite H. Qed.

Lemma mean_unweighted_cached (self : Empirical.t R) (m : R) :
  Empirical._mean_unweighted self = Some m ->
  Empirical.mean_unweighted self = Some (m, self).
Proof. intros H. unfold Empirical.mean_unweighted. now rewrite H. Qed.

Lemma variance_unweighted_cached (self : Empirical.t R) (v : R) :
  Empirical._variance_unweighted self = Some v ->
  Empirical.variance_unweighted self = Some (v, self).
Proof. intros H. unfold Empirical.variance_unweighted. now rewrite H. Qed.

Lemma mean_first_access (self : Empirical.t R) :
  well_formed self -> Empirical._mean self = None ->
  Empirical.mean self
  = Some (weighted_sum (fun x => x) self,
          with_caches self (Some (weighted_sum (fun x => x) self))
            (Empirical._mean_unweighted self) (Empirical._variance self)
            (Empirical._variance_unweighted self)).
Proof.
  intros Hwf Hnone. unfold Empirical.mean.
  rewrite Hnone, expectation_spec by exact Hwf. reflexivity.
Qed.

Lemma variance_first_access (self : Empirical.t R) :
  well_formed self ->
  Empirical._mean self = None -> Empirical._variance self = None ->
  let m := weighted_sum (fun x => x) self in
  let v := weighted_sum (fun x => (x - m) ^ 2) self in
  Empirical.variance self
  = Some (v, with_caches self (Some m) (Empirical._mean_unweighted self)
               (Some v) (Empirical._variance_unweighted self)).
Proof.
  intros Hwf Hm Hv m v. unfold Empirical.variance.
  rewrite Hv, mean_first_access by assumption. fold m.
  rewrite expectation_spec by exact Hwf.
  reflexivity.
Qed.

Lemma mean_unweighted_first_access (self : Empirical.t R) :
  well_formed self -> Empirical.length self <> 0%nat ->
  Empirical._mean_unweighted self = None ->
  let m := Rsum (Empirical.values self) / INR (Empirical.length self) in
  Empirical.mean_unweighted self
  = Some (m, with_caches self (Empirical._mean self) (Some m)
               (Empirical._variance self) (Empirical._variance_unweighted self)).
Proof.
  intros Hwf Hlen Hnone m. unfold Empirical.mean_unweighted.
  rewrite Hnone, total_of_spec by exact Hwf.
  apply Nat.eqb_neq in Hlen. rewrite Hlen. rewrite map_id. reflexivity.
Qed.

Lemma variance_unweighted_first_access (self : Empirical.t R) :
  well_formed self -> Empirical.length self <> 0%nat ->
  Empirical._mean_unweighted self = None ->
  Empirical._variance_unweighted self = None ->
  let m := Rsum (Empirical.values self) / INR (Empirical.length self) in
  let v := Rsum (map (fun x => (x - m) ^ 2) (Empirical.values self))
           / INR (Empirical.length self) in
  Empirical.variance_unweighted self
  = Some (v, with_caches self (Empirical._mean self) (Some m)
               (Empirical._variance self) (Some v)).
Proof.
  intros Hwf Hlen Hm Hv m v. unfold Empirical.variance_unweighted.
  rewrite Hv, mean_unweighted_first_access by assumption. fold m.
  rewrite total_of_spec by exact Hwf.
  cbn [Empirical.length with_caches].
  apply Nat.eqb_neq in Hlen. rewrite Hlen. reflexivity.
Qed.

Lemma init_well_formed (V : Type) (torch_equal key_same : V -> V -> bool)
    (torch_sort : list R -> bool -> list R * list nat) :
  sort_contract torch_sort ->
  forall (values : list V) log_weights combine_duplicates,
    values <> [] -> one_weight_per_value values log_weights ->
    exists d e,
      Empirical.aggregate V torch_equal key_same values log_weights
        combine_duplicates = Some d /\
      Empirical.__init__ V torch_equal key_same torch_sort values log_weights
        combine_duplicates = Some e /\
      well_formed e /\
      Empirical.length e = List.length d /\
      Empirical.length e <> 0%nat /\
      Permutation (Empirical.values e) (map fst d) /\
      Empirical._mean e = None /\
      Empirical._mean_unweighted e = None /\
      Empirical._variance e = None /\
      Empirical._variance_unweighted e = None.
Proof.
  intros Hsort values log_weights c Hne Hlen.
  destruct (init_spec V torch_equal key_same torch_sort Hsort values log_weights c
              Hne Hlen)
    as (d & e & Hagg & Hinit & Hd & Hperm & _ & Hl & Hlv & Hlw & Hcaches).
  exists d, e.
  destruct (stored_values_permutation V d e Hperm) as [Hpv _]; [lia |].
  repeat split; try tauto; try lia.
  rewrite Hl. destruct d; [congruence | discriminate].
Qed.

(** C8. On the object that [__init__] builds, expectation(f) is the sum of
    the f(values[i]) weights[i] over the stored entries.  The first access
    to [mean] computes the expectation of the identity and stores it; the
    first access to [variance], also when [mean] was never read, computes
    the mean on demand and then the expectation of the squared deviation
    from it, and stores both.  An object whose cache is filled returns the
    cached number, unchanged. *)
Theorem empirical_expectation_mean_variance :
  (forall (V : Type) (torch_equal key_same : V -> V -> bool)
          (torch_sort : list R -> bool -> list R * list nat),
     sort_contract torch_sort ->
     forall (values : list V) (log_weights : option (list R))
            (combine_duplicates : bool),
       values <> [] -> one_weight_per_value values log_weights ->
       exists e,
         Empirical.__init__ V torch_equal key_same torch_sort values log_weights
           combine_duplicates = Some e /\
         forall func : V -> R,
           Empirical.expectation e func
           = Some (Rsum (map (fun p => func (fst p) * snd p)
                           (combine (Empirical.values e) (Empirical.weights e))))) /\
  (forall (torch_equal key_same : R -> R -> bool)
          (torch_sort : list R -> bool -> list R * list nat),
     sort_contract torch_sort ->
     forall (values : list R) (log_weights : option (list R))
            (combine_duplicates : bool),
       values <> [] -> one_weight_per_value values log_weights ->
       exists e,
         Empirical.__init__ R torch_equal key_same torch_sort values log_weights
           combine_duplicates = Some e /\
         let m := weighted_sum (fun x => x) e in
         let v := weighted_sum (fun x => (x - m) ^ 2) e in
         (exists e1,
            Empirical.mean e = Some (m, e1) /\
            Empirical._mean e1 = Some m /\
            Empirical.mean e1 = Some (m, e1) /\
            exists e3,
              Empirical.variance e1 = Some (v, e3) /\
              Empirical._mean e3 = Some m /\
              Empirical._variance e3 = Some v) /\
         (exists e2,
            Empirical.variance e = Some (v, e2) /\
            Empirical._mean e2 = Some m /\
            Empirical._variance e2 = Some v /\
            Empirical.variance e2 = Some (v, e2) /\
            Empirical.mean e2 = Some (m, e2))) /\
  (forall (self : Empirical.t R) (c : R),
     (Empirical._mean self = Some c -> Empirical.mean self = Some (c, self)) /\
     (Empirical._variance self = Some c ->
      Empirical.variance self = Some (c, self))).
Proof.
  split; [| split].
  - intros V torch_equal key_same torch_sort Hsort values log_weights c Hne Hlen.
    destruct (init_well_formed V torch_equal key_same torch_sort Hsort values
                log_weights c Hne Hlen) as (d & e & _ & Hinit & Hwf & _).
    exists e. split; [exact Hinit |]. intros func.
    now apply expectation_spec.
  - intros torch_equal key_same torch_sort Hsort values log_weights c Hne Hlen.
    destruct (init_well_formed R torch_equal key_same torch_sort Hsort values
                log_weights c Hne Hlen)
      as (d & e & _ & Hinit & Hwf & _ & _ & _ & Hm & Hmu & Hv & Hvu).
    exists e. split; [exact Hinit |]. intros m v. split.
    + exists (with_caches e (Some m) (Empirical._mean_unweighted e)
                (Empirical._variance e) (Empirical._variance_unweighted e)).
      split; [now apply mean_first_access |].
      split; [reflexivity |]. split; [now apply mean_cached |].
      exists (with_caches e (Some m) (Empirical._mean_unweighted e)
                (Some v) (Empirical._variance_unweighted e)).
      split; [| split; reflexivity].
      unfold Empirical.variance, Empirical.mean.
      cbn [with_caches Empirical._variance Empirical._mean].
      rewrite Hv.
      change (Empirical.expectation
                {| Empirical.values := Empirical.values e;
                   Empirical.weights := Empirical.weights e;
                   Empirical.length := Empirical.length e;
                   Empirical._mean := Some m;
                   Empirical._mean_unweighted := Empirical._mean_unweighted e;
                   Empirical._variance := None;
                   Empirical._variance_unweighted := Empirical._variance_unweighted e |}
                (fun x => (x - m) ^ 2))
        with (Empirical.expectation e (fun x => (x - m) ^ 2)).
      rewrite expectation_spec by exact Hwf.
      reflexivity.
    + eexists. split; [now apply variance_first_access |].
      split; [reflexivity |]. split; [reflexivity |].
      split; [now apply variance_cached | now apply mean_cached].
  - intros self c. split; [apply mean_cached | apply variance_cached].
Qed.

Lemma aggregate_1_1_2_uniform :
  Empirical.aggregate R Req_bool fresh_key [1; 1; 2] None true
  = Some [(1, / 3 + / 3); (2, / 3)].
Proof.
  rewrite aggregate_nonempty by discriminate.
  rewrite normalize_uniform_3. apply combine_loop_1_1_2.
Qed.

(** C10. The unweighted mean and variance are averages over the stored
    entries: the sum over the stored values divided by the stored length,
    which is the number of entries of the aggregated dictionary, not the
    number of values supplied.  With combine_duplicates on [1, 1, 2] the
    object has 2 entries and its unweighted mean is (1 + 2) / 2 = 1.5,
    not 4/3. *)
Theorem empirical_unweighted_moments_over_entries :
  (forall (torch_equal key_same : R -> R -> bool)
          (torch_sort : list R -> bool -> list R * list nat),
     sort_contract torch_sort ->
     forall (values : list R) (log_weights : option (list R))
            (combine_duplicates : bool),
       values <> [] -> one_weight_per_value values log_weights ->
       exists d e,
         Empirical.aggregate R torch_equal key_same values log_weights
           combine_duplicates = Some d /\
         Empirical.__init__ R torch_equal key_same torch_sort values log_weights
           combine_duplicates = Some e /\
         Empirical.length e = List.length d /\
         Rsum (Empirical.values e) = Rsum (map fst d) /\
         let m := Rsum (Empirical.values e) / INR (List.length d) in
         let v := Rsum (map (fun x => (x - m) ^ 2) (Empirical.values e))
                  / INR (List.length d) in
         (exists e1,
            Empirical.mean_unweighted e = Some (m, e1) /\
            Empirical.mean_unweighted e1 = Some (m, e1)) /\
         (exists e2,
            Empirical.variance_unweighted e = Some (v, e2) /\
            Empirical.variance_unweighted e2 = Some (v, e2))) /\
  (forall torch_sort : list R -> bool -> list R * list nat,
     sort_contract torch_sort ->
     exists e m e1,
       Empirical.__init__ R Req_bool fresh_key torch_sort [1; 1; 2] None true
       = Some e /\
       Empirical.length e = 2%nat /\
       Empirical.mean_unweighted e = Some (m, e1) /\
       m = (1 + 2) / 2 /\ m = 1.5 /\ m <> (1 + 1 + 2) / 3).
Proof.
  assert (Hgen : forall (torch_equal key_same : R -> R -> bool)
          (torch_sort : list R -> bool -> list R * list nat),
     sort_contract torch_sort ->
     forall (values : list R) (log_weights : option (list R))
            (combine_duplicates : bool),
       values <> [] -> one_weight_per_value values log_weights ->
       exists d e,
         Empirical.aggregate R torch_equal key_same values log_weights
           combine_duplicates = Some d /\
         Empirical.__init__ R torch_equal key_same torch_sort values log_weights
           combine_duplicates = Some e /\
         Empirical.length e = List.length d /\
         Rsum (Empirical.values e) = Rsum (map fst d) /\
         let m := Rsum (Empirical.values e) / INR (List.length d) in
         let v := Rsum (map (fun x => (x - m) ^ 2) (Empirical.values e))
                  / INR (List.length d) in
         (exists e1,
            Empirical.mean_unweighted e = Some (m, e1) /\
            Empirical.mean_unweighted e1 = Some (m, e1)) /\
         (exists e2,
            Empirical.variance_unweighted e = Some (v, e2) /\
            Empirical.variance_unweighted e2 = Some (v, e2))).
  { intros torch_equal key_same torch_sort Hsort values log_weights c Hne Hlen.
    destruct (init_well_formed R torch_equal key_same torch_sort Hsort values
                log_weights c Hne Hlen)
      as (d & e & Hagg & Hinit & Hwf & Hl & Hl0 & Hpv & Hm & Hmu & Hv & Hvu).
    exists d, e. split; [exact Hagg |]. split; [exact Hinit |].
    split; [exact Hl |]. split; [now apply Rsum_permutation |].
    intros m v. subst m v. rewrite <- Hl. split.
    - eexists. split; [now apply mean_unweighted_first_access |].
      now apply mean_unweighted_cached.
    - eexists. split; [now apply variance_unweighted_first_access |].
      now apply variance_unweighted_cached. }
  split; [exact Hgen |].
  intros torch_sort Hsort.
  destruct (Hgen Req_bool fresh_key torch_sort Hsort [1; 1; 2] None true)
    as (d & e & Hagg & Hinit & Hl & Hsum & (e1 & Hmean & _) & _).
  { discriminate. }
  { unfold one_weight_per_value, input_log_weights. apply repeat_length. }
  rewrite aggregate_1_1_2_uniform in Hagg. injection Hagg as <-.
  cbn [List.length map fst] in *.
  exists e, (Rsum (Empirical.values e) / INR 2), e1.
  split; [exact Hinit |]. split; [exact Hl |]. split; [exact Hmean |].
  rewrite Hsum. unfold Rsum. simpl. repeat split; lra.
Qed.


Lemma truncated_normal_sample_never_redraws_witness :
  exists s,
    @TruncatedNormal.sample soft_sign_model 3
      (@lower_half_normal soft_sign_model)
      {| draws := fun _ => Fin 0; pos := 0 |}
    = (TruncatedNormal.Running s, {| draws := fun _ => Fin 0; pos := 1 |}) /\
    TruncatedNormal.attempt_count s = 3%Z /\
    TruncatedNormal.printed s = [].
Proof.
  exact (proj1 (@truncated_normal_sample_never_redraws soft_sign_model
                  {| draws := fun _ => Fin 0; pos := 0 |} eq_refl) 3%nat).
Defined.

(** ** The properties of Empirical on a concrete input *)

Lemma fresh_key_spec (a b : R) : fresh_key a b = true -> a = b.
Proof. discriminate. Qed.

Lemma empirical_sorted_by_descending_weight_witness :
  exists d e,
    Empirical.aggregate R Req_bool fresh_key [1; 1; 2] None true = Some d /\
    Empirical.__init__ R Req_bool fresh_key index_sort [1; 1; 2] None true
    = Some e /\
    (forall i j, (i < j < List.length (Empirical.weights e))%nat ->
       nth j (Empirical.weights e) 0 <= nth i (Empirical.weights e) 0) /\
    Permutation (combine (Empirical.values e) (Empirical.weights e)) d /\
    List.length (Empirical.values e) = List.length (Empirical.weights e) /\
    Empirical.length e = List.length (Empirical.values e).
Proof.
  apply (empirical_sorted_by_descending_weight R Req_bool fresh_key
           index_sort index_sort_contract [1; 1; 2] None true).
  - discriminate.
  - reflexivity.
Defined.

Lemma empirical_combine_duplicates_witness :
  exists e,
    Empirical.__init__ R Req_bool fresh_key index_sort [1; 1; 2]
      (Some [ln 0.25; ln 0.25; ln 0.5]) true = Some e /\
    Empirical.length e = 2%nat /\
    (forall k x,
       In (k, x) (combine (Empirical.values e) (Empirical.weights e)) <->
       (k = 1 /\ x = 0.5) \/ (k = 2 /\ x = 0.5)).
Proof.
  exact (proj2 (proj2 (proj2 empirical_combine_duplicates index_sort
                         index_sort_contract))).
Defined.

Lemma empirical_expectation_mean_variance_witness :
  exists e,
    Empirical.__init__ R Req_bool fresh_key index_sort [0; 1]
      (Some [ln 0.3; ln 0.7]) false = Some e /\
    forall func : R -> R,
      Empirical.expectation e func
      = Some (Rsum (map (fun p => func (fst p) * snd p)
                      (combine (Empirical.values e) (Empirical.weights e)))).
Proof.
  apply (proj1 empirical_expectation_mean_variance R Req_bool fresh_key
           index_sort index_sort_contract
           [0; 1] (Some [ln 0.3; ln 0.7]) false).
  - discriminate.
  - reflexivity.
Defined.

Lemma empirical_unweighted_moments_over_entries_witness :
  exists e m e1,
    Empirical.__init__ R Req_bool fresh_key index_sort [1; 1; 2] None true
    = Some e /\
    Empirical.length e = 2%nat /\
    Empirical.mean_unweighted e = Some (m, e1) /\
    m = (1 + 2) / 2 /\ m = 1.5 /\ m <> (1 + 1 + 2) / 3.
Proof.
  exact (proj2 empirical_unweighted_moments_over_entries index_sort
           index_sort_contract).
Defined.

(** * Further properties *)

(** ** Uniform: sampling, density and degenerate bounds *)

Lemma uniform_variance_finite (low high : R) :
  Uniform.variance (Uniform.__init__ (Fin low) (Fin high))
  = Fin ((high - low) * (high - low) / 12).
Proof.
  unfold Uniform.variance, Uniform.__init__; cbn [Uniform._variance].
  unfold pow2. rewrite esub_Fin, emul_Fin, ediv_Fin by lra. reflexivity.
Qed.

(** X1. A sample of Uniform(low, high), low < high, drawn from r in
    [0, 1] lies in the closed range [low, high]; the draw r = 1 gives the
    value high itself, at which the log-density is -inf: the range of
    sampling includes the bound that the density excludes. *)
Theorem uniform_sample_density :
  forall low high : R, low < high ->
    let u := Uniform.__init__ (Fin low) (Fin high) in
    (forall r : R, 0 <= r <= 1 ->
       exists x, Uniform.sample u (Fin r) = Fin x /\ low <= x <= high) /\
    (exists x, Uniform.sample u (Fin 1) = Fin x /\ x = high /\
               Uniform.log_prob u (Fin x) = NInf).
Proof.
  intros low high Hlh u. subst u. split.
  - intros r Hr. exists (low + r * (high - low)). split; [reflexivity |]. nra.
  - exists (low + 1 * (high - low)). split; [reflexivity |].
    split; [lra |].
    apply uniform_log_prob_outside; [exact Hlh |].
    intros x [= <-]. lra.
Qed.

Lemma uniform_sample_density_witness :
  exists x, Uniform.sample (Uniform.__init__ (Fin 0) (Fin 2)) (Fin 0.5) = Fin x /\
            0 <= x <= 2.
Proof.
  apply (proj1 (uniform_sample_density 0 2 ltac:(lra)) 0.5). lra.
Defined.

(** X2. The density of Uniform(low, high), low < high, is 1/(high - low)
    on [low, high) and 0 at every other value. *)
Theorem uniform_prob_values :
  forall low high : R, low < high ->
    let u := Uniform.__init__ (Fin low) (Fin high) in
    (forall x : R, low <= x < high ->
       Uniform.prob u (Fin x) = Fin (1 / (high - low))) /\
    (forall x : ext, (forall r, x = Fin r -> ~ (low <= r < high)) ->
       Uniform.prob u x = Fin 0).
Proof.
  intros low high Hlh u. subst u. split.
  - intros x Hx. unfold Uniform.prob.
    rewrite uniform_log_prob_inside by assumption. cbn [eexp].
    rewrite exp_Ropp, exp_ln by lra. f_equal. lra.
  - intros x Hx. unfold Uniform.prob.
    rewrite uniform_log_prob_outside by assumption. reflexivity.
Qed.

Lemma uniform_prob_values_witness :
  Uniform.prob (Uniform.__init__ (Fin 0) (Fin 2)) (Fin 1) = Fin (1 / (2 - 0)).
Proof.
  apply (proj1 (uniform_prob_values 0 2 ltac:(lra)) 1). lra.
Defined.

(** X3. The standard deviation of Uniform(low, high), low <= high, is
    (high - low) / sqrt 12. *)
Theorem uniform_stddev_value :
  forall low high : R, low <= high ->
    Uniform.stddev (Uniform.__init__ (Fin low) (Fin high))
    = Fin ((high - low) / sqrt 12).
Proof.
  intros low high Hlh. unfold Uniform.stddev.
  rewrite uniform_variance_finite. cbn [esqrt].
  assert (Hsq : 0 <= (high - low) * (high - low) / 12) by nra.
  destruct (Rle_dec 0 ((high - low) * (high - low) / 12)); [| contradiction].
  f_equal. rewrite sqrt_div_alt by lra.
  rewrite sqrt_square by lra. reflexivity.
Qed.

Lemma uniform_stddev_value_witness :
  Uniform.stddev (Uniform.__init__ (Fin 0) (Fin 1)) = Fin ((1 - 0) / sqrt 12).
Proof. apply uniform_stddev_value. lra. Defined.

(** X4. With high <= low the log-density of Uniform(low, high) is NaN at
    every value: the indicator is 0 everywhere and log(high - low) is -inf
    or NaN. *)
Theorem uniform_degenerate_log_prob :
  forall low high : R, high <= low ->
    forall x : ext,
      Uniform.log_prob (Uniform.__init__ (Fin low) (Fin high)) x = NaN.
Proof.
  intros low high Hhl x. unfold Uniform.log_prob.
  cbn [Uniform._low Uniform._high Uniform.__init__].
  rewrite mask_product, elog_mask, esub_Fin.
  assert (Hm : ege x (Fin low) && elt x (Fin high) = false).
  { destruct x as [r | | |]; try reflexivity.
    apply andb_false_iff. destruct (Rle_dec low r) as [Hl | Hl].
    - right. apply elt_Fin_false. lra.
    - left. apply ege_Fin_false. lra. }
  rewrite Hm. cbn [elog].
  destruct (Rlt_dec 0 (high - low)); [lra |].
  destruct (Req_dec_T (high - low) 0); reflexivity.
Qed.

Lemma uniform_degenerate_log_prob_witness :
  Uniform.log_prob (Uniform.__init__ (Fin 1) (Fin 1)) (Fin 1) = NaN.
Proof. apply uniform_degenerate_log_prob. lra. Defined.

(** ** Normal: distribution function, quantiles and density *)

Lemma emul_PInf_pos b : 0 < b -> emul PInf (Fin b) = PInf.
Proof.
  intros Hb. simpl. unfold inf_times.
  destruct (Req_dec_T b 0); [lra |]. destruct (Rlt_dec 0 b); [reflexivity | lra].
Qed.


Lemma ediv_PInf_pos b : 0 < b -> ediv PInf (Fin b) = PInf.
Proof. intros Hb. simpl. destruct (Rle_dec 0 b); [reflexivity | lra]. Qed.

Section NormalFurther.

Context {EF : ErrorFunction}.

(** X6. For stddev > 0 the distribution function does not decrease and
    its values lie in [0, 1]; it is 0.5 at the mean, 1 at +inf and 0 at
    -inf. *)
Theorem normal_cdf_monotone :
  forall mean stddev : R, 0 < stddev ->
    let n := Normal.__init__ (Fin mean) (Fin stddev) in
    (forall x y : R, x <= y ->
       exists p q, Normal.cdf n (Fin x) = Fin p /\
                   Normal.cdf n (Fin y) = Fin q /\
                   0 <= p /\ p <= q /\ q <= 1) /\
    Normal.cdf n (Fin mean) = Fin 0.5 /\
    Normal.cdf n PInf = Fin 1 /\
    Normal.cdf n NInf = Fin 0.
Proof.
  intros mean stddev Hs n. subst n. pose proof sqrt2_pos as H2.
  assert (Hrec : 0 < 1 / stddev).
  { unfold Rdiv. rewrite Rmult_1_l. now apply Rinv_0_lt_compat. }
  split; [| split; [| split]].
  - intros x y Hxy. rewrite !normal_cdf_finite by lra.
    do 2 eexists. split; [reflexivity |]. split; [reflexivity |].
    assert (Hlt : (x - mean) / (stddev * sqrt 2) <= (y - mean) / (stddev * sqrt 2)).
    { unfold Rdiv. apply Rmult_le_compat_r; [| lra].
      apply Rlt_le, Rinv_0_lt_compat. nra. }
    apply erf_monotone in Hlt.
    pose proof (erf_bounds ((x - mean) / (stddev * sqrt 2))).
    pose proof (erf_bounds ((y - mean) / (stddev * sqrt 2))).
    lra.
  - rewrite normal_cdf_finite by lra. f_equal.
    replace ((mean - mean) / (stddev * sqrt 2)) with 0 by (field; lra).
    rewrite erf_0. lra.
  - unfold Normal.cdf, Normal.__init__; cbn [Normal._mean Normal._stddev].
    change (esub PInf (Fin mean)) with PInf.
    rewrite reciprocal_Fin, emul_PInf_pos, ediv_PInf_pos by lra.
    cbn [torch_erf]. rewrite eadd_Fin, emul_Fin. f_equal. lra.
  - unfold Normal.cdf, Normal.__init__; cbn [Normal._mean Normal._stddev].
    change (esub NInf (Fin mean)) with NInf.
    rewrite reciprocal_Fin, emul_NInf_pos, ediv_NInf_pos by lra.
    cbn [torch_erf]. rewrite eadd_Fin, emul_Fin. f_equal. lra.
Qed.




End NormalFurther.

Lemma normal_cdf_monotone_witness :
  @Normal.cdf soft_sign_model (Normal.__init__ (Fin 3) (Fin 2)) PInf = Fin 1.
Proof.
  exact (proj1 (proj2 (proj2 (@normal_cdf_monotone soft_sign_model 3 2
                                 ltac:(lra))))).
Defined.


Lemma normal_log_prob_finite (mean stddev x : R) :
  0 < stddev ->
  Normal.log_prob (Normal.__init__ (Fin mean) (Fin stddev)) (Fin x)
  = Fin (- ((x - mean) * (x - mean)) / (2 * (stddev * stddev))
         - ln stddev - ln (sqrt (2 * PI))).
Proof.
  intros Hs. unfold Normal.log_prob, Normal.__init__.
  cbn [Normal._mean Normal._stddev]. unfold pow2.
  rewrite esub_Fin, !emul_Fin. cbn [eopp].
  rewrite ediv_Fin by nra. rewrite elog_pos by exact Hs.
  rewrite !esub_Fin. reflexivity.
Qed.

(** X8. For stddev > 0 the log-density of Normal(mean, stddev) at a finite
    x is -(x - mean)^2 / (2 stddev^2) - log stddev - log sqrt(2 pi); it is
    symmetric about the mean and greatest at the mean, and the density
    itself is a finite number that is not negative. *)
Theorem normal_log_prob_shape :
  forall mean stddev : R, 0 < stddev ->
    let n := Normal.__init__ (Fin mean) (Fin stddev) in
    (forall x : R,
       Normal.log_prob n (Fin x)
       = Fin (- ((x - mean) * (x - mean)) / (2 * (stddev * stddev))
              - ln stddev - ln (sqrt (2 * PI)))) /\
    (forall d : R,
       Normal.log_prob n (Fin (mean + d)) = Normal.log_prob n (Fin (mean - d))) /\
    (forall x : R, exists lx lm,
       Normal.log_prob n (Fin x) = Fin lx /\
       Normal.log_prob n (Fin mean) = Fin lm /\ lx <= lm) /\
    (forall x : R, exists p, Normal.prob n (Fin x) = Fin p /\ 0 <= p).
Proof.
  intros mean stddev Hs n. subst n.
  split; [| split; [| split]].
  - intros x. now apply normal_log_prob_finite.
  - intros d. rewrite !normal_log_prob_finite by exact Hs.
    f_equal. f_equal. f_equal. f_equal. f_equal. ring.
  - intros x. rewrite !normal_log_prob_finite by exact Hs.
    do 2 eexists. split; [reflexivity |]. split; [reflexivity |].
    assert (Hden : 0 < 2 * (stddev * stddev)) by nra.
    assert (Hq : 0 <= (x - mean) * (x - mean) / (2 * (stddev * stddev))).
    { unfold Rdiv. apply Rmult_le_pos.
      - pose proof (Rle_0_sqr (x - mean)) as Hsq. unfold Rsqr in Hsq. exact Hsq.
      - apply Rlt_le. now apply Rinv_0_lt_compat. }
    replace (- ((mean - mean) * (mean - mean)) / (2 * (stddev * stddev)))
      with 0 by (field; lra).
    replace (- ((x - mean) * (x - mean)) / (2 * (stddev * stddev)))
      with (- ((x - mean) * (x - mean) / (2 * (stddev * stddev))))
      by (field; lra).
    lra.
  - intros x. unfold Normal.prob. rewrite normal_log_prob_finite by exact Hs.
    eexists. split; [reflexivity |]. apply Rlt_le, exp_pos.
Qed.

Lemma normal_log_prob_shape_witness :
  Normal.log_prob (Normal.__init__ (Fin 3) (Fin 2)) (Fin (3 + 1))
  = Normal.log_prob (Normal.__init__ (Fin 3) (Fin 2)) (Fin (3 - 1)).
Proof.
  exact (proj1 (proj2 (normal_log_prob_shape 3 2 ltac:(lra))) 1).
Defined.

(** ** TruncatedNormal: density, sampling and moments *)

Section TruncatedNormalFurther.

Context {EF : ErrorFunction}.


(** The value of [log_prob] at a finite x, the indicator left as it is. *)
Lemma truncated_normal_log_prob_finite (mean stddev low high x : R) :
  stddev <> 0 ->
  let alpha := (low - mean) / stddev in
  let beta := (high - mean) / stddev in
  TruncatedNormal.log_prob
    (TruncatedNormal.__init__ (Fin mean) (Fin stddev) (Fin low) (Fin high)) (Fin x)
  = esub
      (eadd (if ege (Fin x) (Fin low) && ele (Fin x) (Fin high)
             then Fin 0 else NInf)
            (Fin (standard_normal_log_density ((x - mean) / stddev))))
      (elog (Fin (stddev * (Phi beta - Phi alpha)))).
Proof.
  intros Hs alpha beta.
  destruct (truncated_normal_init_finite mean stddev low high Hs)
    as (_ & _ & _ & _ & _ & HlZ).
  cbv zeta in HlZ. fold alpha beta in HlZ.
  unfold TruncatedNormal.log_prob. rewrite HlZ, mask_product, elog_mask.
  cbn [TruncatedNormal._low TruncatedNormal._high
       TruncatedNormal._standard_normal_dist TruncatedNormal._mean_non_truncated
       TruncatedNormal._stddev_non_truncated TruncatedNormal.__init__].
  fold standard_normal.
  rewrite esub_Fin, ediv_Fin, standard_normal_log_prob by exact Hs.
  reflexivity.
Qed.

Lemma inside_mask (low high x : R) :
  low <= x <= high -> ege (Fin x) (Fin low) && ele (Fin x) (Fin high) = true.
Proof.
  intros Hx. unfold ele. apply andb_true_iff. split; apply ege_Fin; lra.
Qed.

Lemma outside_mask (low high x : R) :
  ~ (low <= x <= high) -> ege (Fin x) (Fin low) && ele (Fin x) (Fin high) = false.
Proof.
  intros Hx. unfold ele. apply andb_false_iff.
  destruct (Rle_dec low x) as [Hl | Hl].
  - right. apply ege_Fin_false. lra.
  - left. apply ege_Fin_false. lra.
Qed.

(** X10. When low = high the mass Z is 0: the log-density is +inf at that
    point and NaN at every other finite value.  And for proper bounds the
    log-density at NaN is NaN. *)
Theorem truncated_normal_degenerate_log_prob :
  forall mean stddev low : R, 0 < stddev ->
    (let tn := TruncatedNormal.__init__ (Fin mean) (Fin stddev) (Fin low) (Fin low) in
     TruncatedNormal._Z tn = Fin (Phi ((low - mean) / stddev)
                                  - Phi ((low - mean) / stddev)) /\
     TruncatedNormal.log_prob tn (Fin low) = PInf /\
     forall x : R, x <> low -> TruncatedNormal.log_prob tn (Fin x) = NaN) /\
    (forall high : R, low < high ->
       TruncatedNormal.log_prob
         (TruncatedNormal.__init__ (Fin mean) (Fin stddev) (Fin low) (Fin high))
         NaN = NaN).
Proof.
  intros mean stddev low Hs. split.
  - cbv zeta.
    assert (Hlog : elog (Fin (stddev * (Phi ((low - mean) / stddev)
                                        - Phi ((low - mean) / stddev)))) = NInf).
    { replace (stddev * (Phi ((low - mean) / stddev) - Phi ((low - mean) / stddev)))
        with 0 by lra. apply elog_0. }
    split; [| split].
    + destruct (truncated_normal_init_finite mean stddev low low) as (_ & _ & _ & _ & HZ & _);
        [lra | exact HZ].
    + rewrite truncated_normal_log_prob_finite by lra.
      rewrite inside_mask by lra. rewrite Hlog. reflexivity.
    + intros x Hx. rewrite truncated_normal_log_prob_finite by lra.
      rewrite outside_mask by lra. rewrite Hlog. reflexivity.
  - intros high Hlh.
    destruct (truncated_normal_init_finite mean stddev low high)
      as (_ & _ & _ & _ & _ & HlZ); [lra |].
    cbv zeta in HlZ.
    pose proof (truncation_mass_pos mean stddev low high Hs Hlh) as HZ.
    unfold TruncatedNormal.log_prob. rewrite HlZ, elog_pos by nra.
    cbn [TruncatedNormal._low TruncatedNormal._high
         TruncatedNormal._standard_normal_dist TruncatedNormal._mean_non_truncated
         TruncatedNormal._stddev_non_truncated TruncatedNormal.__init__].
    rewrite mask_product, elog_mask. cbn [ege andb].
    change (ediv (esub NaN (Fin mean)) (Fin stddev)) with NaN.
    unfold Normal.log_prob, Normal.__init__, pow2.
    cbn [Normal._mean Normal._stddev]. rewrite elog_1. reflexivity.
Qed.

End TruncatedNormalFurther.

Lemma truncated_normal_degenerate_log_prob_witness :
  TruncatedNormal.log_prob
    (@TruncatedNormal.__init__ soft_sign_model (Fin 0) (Fin 1) (Fin 2) (Fin 2))
    (Fin 2) = PInf.
Proof.
  exact (proj1 (proj2 (proj1
           (@truncated_normal_degenerate_log_prob soft_sign_model 0 1 2 ltac:(lra))))).
Defined.


Section TruncatedNormalMoments.

Context {EF : ErrorFunction}.


Lemma standard_normal_density_pos z : 0 < standard_normal_density z.
Proof. apply exp_pos. Qed.




End TruncatedNormalMoments.



(** ** Empirical: rejected inputs, surplus log-weights, positive weights *)

Lemma Rsum_nonneg_member (l : list R) (w : R) :
  Forall (fun x => 0 < x) l -> In w l -> w <= Rsum l.
Proof.
  induction 1 as [| a l Ha Hall IH]; simpl; [tauto |].
  assert (Hpos : 0 <= Rsum l).
  { clear -Hall. induction Hall as [| b l Hb _ IH]; simpl; lra. }
  intros [<- | Hin]; [lra |]. specialize (IH Hin). lra.
Qed.

Lemma Rsum_positive (l : list R) :
  l <> [] -> Forall (fun x => 0 < x) l -> 0 < Rsum l.
Proof.
  intros Hne Hall. destruct l as [| a l]; [congruence |].
  inversion Hall as [| ? ? Ha Hl]; subst. simpl.
  assert (0 <= Rsum l).
  { clear -Hl. induction Hl as [| b l Hb _ IH]; simpl; lra. }
  lra.
Qed.

Lemma normalize_positive lw : Forall (fun x => 0 < x) (Empirical.normalize lw).
Proof.
  unfold Empirical.normalize. apply Forall_forall. intros x Hx.
  apply in_map_iff in Hx. destruct Hx as (y & <- & _). apply exp_pos.
Qed.

Section EmpiricalEdges.

Variable V : Type.
Variable torch_equal : V -> V -> bool.
Variable key_same : V -> V -> bool.
Variable torch_sort : list R -> bool -> list R * list nat.

Implicit Types (d : Empirical.dict V) (k v : V) (w x : R).

Local Abbreviation iadd := (Empirical.iadd V key_same).
Local Abbreviation setitem := (Empirical.setitem V key_same).
Local Abbreviation plain_loop := (Empirical.plain_loop V key_same).
Local Abbreviation combine_loop := (Empirical.combine_loop V torch_equal key_same).
Local Abbreviation aggregate := (Empirical.aggregate V torch_equal key_same).
Local Abbreviation __init__ := (Empirical.__init__ V torch_equal key_same torch_sort).

(** Too few weights: [weights[i]] is out of range at some turn. *)
Lemma plain_loop_short vs : forall ws d,
  (List.length ws < List.length vs)%nat -> plain_loop vs ws d = None.
Proof.
  induction vs as [| v vs IH]; intros [| w ws] d Hlen; simpl in Hlen; try lia.
  - reflexivity.
  - simpl. apply IH. lia.
Qed.

Lemma combine_loop_short vs : forall ws d,
  (List.length ws < List.length vs)%nat -> combine_loop vs ws d = None.
Proof.
  induction vs as [| v vs IH]; intros [| w ws] d Hlen; simpl in Hlen; try lia.
  - reflexivity.
  - cbn [Empirical.combine_loop].
    destruct (Empirical.scan V torch_equal d v w false) as [d' found].
    apply IH. lia.
Qed.

(** Surplus weights are never read. *)
Lemma plain_loop_firstn vs : forall ws d,
  plain_loop vs ws d = plain_loop vs (firstn (List.length vs) ws) d.
Proof.
  induction vs as [| v vs IH]; intros [| w ws] d; simpl; try reflexivity.
  apply IH.
Qed.

Lemma combine_loop_firstn vs : forall ws d,
  combine_loop vs ws d = combine_loop vs (firstn (List.length vs) ws) d.
Proof.
  induction vs as [| v vs IH]; intros [| w ws] d; try reflexivity.
  cbn [List.length firstn Empirical.combine_loop].
  destruct (Empirical.scan V torch_equal d v w false) as [d' found].
  apply IH.
Qed.

(** Every weight that the loops write is positive. *)
Lemma iadd_positive d k w :
  0 < w -> Forall (fun p => 0 < snd p) d -> Forall (fun p => 0 < snd p) (iadd d k w).
Proof.
  intros Hw. induction 1 as [| [k' x'] d Hx Hall IH]; simpl.
  - constructor; [simpl; lra | constructor].
  - simpl in Hx. destruct (key_same k' k); constructor; simpl; try assumption; lra.
Qed.

Lemma setitem_positive d k w :
  0 < w -> Forall (fun p => 0 < snd p) d ->
  Forall (fun p => 0 < snd p) (setitem d k w).
Proof.
  intros Hw. induction 1 as [| [k' x'] d Hx Hall IH]; simpl.
  - constructor; [simpl; lra | constructor].
  - simpl in Hx. destruct (key_same k' k); constructor; simpl; try assumption; lra.
Qed.

Lemma bump_positive d v w :
  0 < w -> Forall (fun p => 0 < snd p) d ->
  Forall (fun p => 0 < snd p) (bump torch_equal v w d).
Proof.
  intros Hw. induction 1 as [| [k' x'] d Hx Hall IH]; simpl; [constructor |].
  simpl in Hx. constructor; [| exact IH].
  destruct (torch_equal k' v); simpl; lra.
Qed.

Lemma plain_loop_positive vs : forall ws d d',
  Forall (fun x => 0 < x) ws -> Forall (fun p => 0 < snd p) d ->
  plain_loop vs ws d = Some d' -> Forall (fun p => 0 < snd p) d'.
Proof.
  induction vs as [| v vs IH]; intros [| w ws] d d' Hws Hd; simpl;
    try discriminate; try (intros [= <-]; exact Hd).
  inversion Hws as [| ? ? Hw Hws']; subst.
  apply IH; [exact Hws' | now apply iadd_positive].
Qed.

Lemma combine_loop_positive vs : forall ws d d',
  Forall (fun x => 0 < x) ws -> Forall (fun p => 0 < snd p) d ->
  combine_loop vs ws d = Some d' -> Forall (fun p => 0 < snd p) d'.
Proof.
  induction vs as [| v vs IH]; intros [| w ws] d d' Hws Hd;
    cbn [Empirical.combine_loop];
    try discriminate; try (intros [= <-]; exact Hd).
  inversion Hws as [| ? ? Hw Hws']; subst.
  rewrite scan_spec. cbn [orb].
  apply IH; [exact Hws' |].
  destruct (existsb (fun p => torch_equal (fst p) v) d).
  - now apply bump_positive.
  - apply setitem_positive; [exact Hw | now apply bump_positive].
Qed.

Lemma aggregate_positive (values : list V) log_weights combine_duplicates d :
  aggregate values log_weights combine_duplicates = Some d ->
  Forall (fun p => 0 < snd p) d.
Proof.
  unfold Empirical.aggregate.
  destruct (match log_weights with
            | Some lw => Some lw
            | None => if Nat.eqb (List.length values) 0 then None
                      else Some (repeat (- ln (INR (List.length values)))
                                   (List.length values))
            end) as [lw |]; [| discriminate].
  destruct combine_duplicates.
  - apply combine_loop_positive; [apply normalize_positive | constructor].
  - apply plain_loop_positive; [apply normalize_positive | constructor].
Qed.

(** X14. [__init__] fails on an empty sequence of values, whatever the
    log-weights, and on fewer log-weights than values. *)
Theorem empirical_init_rejects :
  (forall (log_weights : option (list R)) (combine_duplicates : bool),
     __init__ [] log_weights combine_duplicates = None) /\
  (forall (values : list V) (log_weights : list R) (combine_duplicates : bool),
     (List.length log_weights < List.length values)%nat ->
     __init__ values (Some log_weights) combine_duplicates = None).
Proof.
  split.
  - intros [lw |] c; unfold Empirical.__init__, Empirical.aggregate;
      [| reflexivity].
    destruct c; reflexivity.
  - intros values lw c Hlen. unfold Empirical.__init__, Empirical.aggregate.
    destruct c.
    + rewrite combine_loop_short; [reflexivity | now rewrite normalize_length].
    + rewrite plain_loop_short; [reflexivity | now rewrite normalize_length].
Qed.

Hypothesis torch_sort_ok : sort_contract torch_sort.

Lemma stored_weights_positive (values : list V) log_weights combine_duplicates
    (e : Empirical.t V) :
  __init__ values log_weights combine_duplicates = Some e ->
  Forall (fun w => 0 < w) (Empirical.weights e).
Proof.
  intros Hinit. apply Forall_forall. intros w Hw.
  unfold Empirical.__init__ in Hinit.
  destruct (aggregate values log_weights combine_duplicates) as [d |] eqn:Hagg;
    [| discriminate].
  pose proof (aggregate_positive values log_weights combine_duplicates d Hagg)
    as Hpos.
  assert (Hd : d <> []).
  { intros ->. discriminate Hinit. }
  destruct (store_spec V torch_sort torch_sort_ok d Hd)
    as (e' & Hstore & Hperm & _ & _ & Hlv & Hlw & _).
  rewrite Hstore in Hinit. injection Hinit as <-.
  destruct (stored_values_permutation V d e' Hperm) as [_ Hpw]; [lia |].
  apply (Permutation_in _ Hpw) in Hw.
  apply in_map_iff in Hw. destruct Hw as (p & <- & Hp).
  rewrite Forall_forall in Hpos. now apply Hpos.
Qed.

(** X15. No weight stored by [__init__] is negative, on every input that
    it accepts (also one with surplus log-weights). *)
Theorem empirical_weights_nonnegative :
  forall (values : list V) (log_weights : option (list R))
         (combine_duplicates : bool) (e : Empirical.t V),
    __init__ values log_weights combine_duplicates = Some e ->
    Forall (fun w => 0 <= w) (Empirical.weights e).
Proof.
  intros values log_weights c e Hinit.
  apply (Forall_impl _ (fun w => @Rlt_le 0 w)).
  now apply (stored_weights_positive values log_weights c).
Qed.

Hypothesis torch_equal_spec : forall a b, torch_equal a b = true <-> a = b.
Hypothesis key_same_spec : forall a b, key_same a b = true -> a = b.

Lemma surplus_log_weights_stored :
  forall (values : list V) (log_weights : list R) (combine_duplicates : bool),
    values <> [] ->
    (List.length values < List.length log_weights)%nat ->
    exists e,
      __init__ values (Some log_weights) combine_duplicates = Some e /\
      Rsum (Empirical.weights e)
      = Rsum (firstn (List.length values) (Empirical.normalize log_weights)).
Proof.
  intros values lw c Hne Hlen.
  set (ws := Empirical.normalize lw).
  set (n := List.length values).
  assert (Hfn : List.length values = List.length (firstn n ws)).
  { rewrite length_firstn. unfold ws. rewrite normalize_length. lia. }
  assert (Hagg : exists d,
             aggregate values (Some lw) c = Some d /\ d <> [] /\
             Rsum (map snd d) = Rsum (firstn n ws)).
  { unfold Empirical.aggregate. fold ws. destruct c.
    - rewrite combine_loop_firstn. fold n.
      destruct (combine_loop_spec V torch_equal key_same torch_equal_spec
                  key_same_spec values (firstn n ws) [] Hfn (NoDup_nil _))
        as (d & Hrun & _ & _ & _ & Hsum).
      destruct (combine_loop_total V torch_equal key_same values (firstn n ws) [] Hfn)
        as (d' & Hrun' & Hd).
      rewrite Hrun in Hrun'. injection Hrun' as <-.
      exists d. split; [exact Hrun |]. split; [apply Hd; now left |].
      rewrite Hsum. simpl. lra.
    - rewrite plain_loop_firstn. fold n.
      destruct (plain_loop_spec V key_same values (firstn n ws) [] Hfn)
        as (d & Hrun & Hsum & Hd).
      exists d. split; [exact Hrun |]. split; [apply Hd; now left |].
      rewrite Hsum. simpl. lra. }
  destruct Hagg as (d & Hagg & Hd & Hsum).
  destruct (store_spec V torch_sort torch_sort_ok d Hd)
    as (e & Hstore & Hperm & _ & _ & Hlv & Hlw & _).
  exists e. unfold Empirical.__init__. rewrite Hagg.
  split; [exact Hstore |].
  destruct (stored_values_permutation V d e Hperm) as [_ Hpw]; [lia |].
  rewrite (Rsum_permutation _ _ Hpw), Hsum. reflexivity.
Qed.

(** X16. With more log-weights than values [__init__] succeeds: it
    normalizes over all the log-weights and reads only the first
    len(values) weights, so the stored weights sum to the sum of those
    first weights, not to the sum of all of them. *)
Theorem empirical_surplus_log_weights :
  forall (values : list V) (log_weights : list R) (combine_duplicates : bool),
    values <> [] ->
    (List.length values < List.length log_weights)%nat ->
    exists e,
      __init__ values (Some log_weights) combine_duplicates = Some e /\
      Rsum (Empirical.weights e)
      = Rsum (firstn (List.length values) (Empirical.normalize log_weights)).
Proof. exact surplus_log_weights_stored. Qed.

End EmpiricalEdges.

(** ** Empirical: expectations in terms of the input *)

Section EmpiricalInputSums.

Variable V : Type.
Variable torch_equal : V -> V -> bool.
Variable key_same : V -> V -> bool.
Variable torch_sort : list R -> bool -> list R * list nat.
Hypothesis torch_sort_ok : sort_contract torch_sort.
Hypothesis torch_equal_spec : forall a b, torch_equal a b = true <-> a = b.
Hypothesis key_same_spec : forall a b, key_same a b = true -> a = b.

Implicit Types (d : Empirical.dict V) (k v : V) (w x : R) (func : V -> R).

Lemma dict_sum_app func d1 d2 :
  dict_sum func (d1 ++ d2) = dict_sum func d1 + dict_sum func d2.
Proof. unfold dict_sum. now rewrite map_app, Rsum_app. Qed.

Lemma iadd_dict_sum func d v w :
  dict_sum func (Empirical.iadd V key_same d v w) = dict_sum func d + func v * w.
Proof.
  unfold dict_sum. induction d as [| [k' x'] d IH]; simpl; [lra |].
  destruct (key_same k' v) eqn:He; simpl.
  - apply key_same_spec in He. subst k'. lra.
  - rewrite IH. lra.
Qed.

Lemma bump_dict_sum func d v w :
  NoDup (map fst d) -> In v (map fst d) ->
  dict_sum func (bump torch_equal v w d) = dict_sum func d + func v * w.
Proof.
  unfold dict_sum.
  induction d as [| [k' x'] d IH]; simpl; intros Hnd Hin; [tauto |].
  inversion Hnd as [| ? ? Hnin Hnd']; subst.
  destruct (torch_equal k' v) eqn:He.
  - apply torch_equal_spec in He. subst k'.
    rewrite (bump_absent V torch_equal torch_equal_spec v w d Hnin). simpl. lra.
  - destruct Hin as [-> | Hin].
    + rewrite (torch_equal_refl V torch_equal torch_equal_spec) in He. discriminate.
    + simpl. rewrite (IH Hnd' Hin). lra.
Qed.

Lemma plain_loop_dict_sum func vs : forall ws d d',
  List.length vs = List.length ws ->
  Empirical.plain_loop V key_same vs ws d = Some d' ->
  dict_sum func d' = dict_sum func d + input_sum func vs ws.
Proof.
  unfold input_sum.
  induction vs as [| v vs IH]; intros [| w ws] d d' Hlen; simpl in Hlen; try lia.
  - simpl. intros [= <-]. lra.
  - simpl. intros Hrun. rewrite (IH ws _ d' ltac:(lia) Hrun), iadd_dict_sum. lra.
Qed.

Lemma combine_loop_dict_sum func vs : forall ws d d',
  List.length vs = List.length ws ->
  NoDup (map fst d) ->
  Empirical.combine_loop V torch_equal key_same vs ws d = Some d' ->
  dict_sum func d' = dict_sum func d + input_sum func vs ws.
Proof.
  unfold input_sum.
  induction vs as [| v vs IH]; intros [| w ws] d d' Hlen Hnd; simpl in Hlen;
    try lia.
  - simpl. intros [= <-]. lra.
  - cbn [Empirical.combine_loop]. rewrite scan_spec. cbn [orb].
    rewrite (combine_step V torch_equal key_same torch_equal_spec key_same_spec).
    destruct (existsb _ d) eqn:Hex; intros Hrun.
    + assert (Hin : In v (map fst d))
        by now apply (existsb_key V torch_equal torch_equal_spec).
      rewrite (IH ws (bump torch_equal v w d) d' ltac:(lia)
                 ltac:(now rewrite bump_keys) Hrun).
      rewrite bump_dict_sum by assumption. simpl. lra.
    + assert (Hnin : ~ In v (map fst d)).
      { intros Hin. apply (existsb_key V torch_equal torch_equal_spec) in Hin.
        congruence. }
      rewrite (IH ws (d ++ [(v, w)]) d' ltac:(lia)
                 ltac:(rewrite map_app; simpl; apply NoDup_app;
                       [exact Hnd | repeat constructor; tauto
                        | intros a Ha [<- | []]; tauto]) Hrun).
      rewrite dict_sum_app. unfold dict_sum. simpl. lra.
Qed.

(** The sum of [func] over the stored entries is its sum over the input. *)
Lemma stored_sum_of_input (values : list V) log_weights combine_duplicates :
  values <> [] -> one_weight_per_value values log_weights ->
  exists e,
    Empirical.__init__ V torch_equal key_same torch_sort values log_weights
      combine_duplicates = Some e /\
    well_formed e /\
    Empirical._mean e = None /\ Empirical._variance e = None /\
    (forall w, In w (Empirical.weights e) -> 0 < w) /\
    forall func,
      weighted_sum func e
      = input_sum func values
          (Empirical.normalize (input_log_weights values log_weights)).
Proof.
  intros Hne Hlen.
  destruct (init_well_formed V torch_equal key_same torch_sort torch_sort_ok
              values log_weights combine_duplicates Hne Hlen)
    as (d & e & Hagg & Hinit & Hwf & Hl & _ & _ & Hm & _ & Hv & _).
  destruct (init_spec V torch_equal key_same torch_sort torch_sort_ok
              values log_weights combine_duplicates Hne Hlen)
    as (d' & e' & Hagg' & Hinit' & _ & Hperm & _).
  rewrite Hagg in Hagg'. injection Hagg' as <-.
  rewrite Hinit in Hinit'. injection Hinit' as <-.
  exists e. split; [exact Hinit |]. split; [exact Hwf |].
  split; [exact Hm |]. split; [exact Hv |]. split.
  - apply Forall_forall.
    apply (stored_weights_positive V torch_equal key_same torch_sort
             torch_sort_ok values log_weights combine_duplicates e Hinit).
  - intros func. unfold weighted_sum.
    rewrite (Rsum_permutation _ _ (Permutation_map _ Hperm)).
    change (Rsum (map (fun p => func (fst p) * snd p) d)) with (dict_sum func d).
    rewrite aggregate_nonempty in Hagg by exact Hne.
    unfold one_weight_per_value in Hlen.
    destruct combine_duplicates.
    + rewrite (combine_loop_dict_sum func values
                 (Empirical.normalize (input_log_weights values log_weights)) [] d);
        [unfold dict_sum; simpl; lra | now rewrite normalize_length
         | constructor | exact Hagg].
    + rewrite (plain_loop_dict_sum func values
                 (Empirical.normalize (input_log_weights values log_weights)) [] d);
        [unfold dict_sum; simpl; lra | now rewrite normalize_length | exact Hagg].
Qed.

(** X17. The expectation of a function under the constructed object is
    the sum of f(values[i]) times the normalized weight of position i over
    the input: merging duplicates and sorting do not change it, so it is
    the same with and without combine_duplicates. *)
Theorem empirical_expectation_of_input :
  forall (values : list V) (log_weights : option (list R))
         (combine_duplicates : bool),
    values <> [] -> one_weight_per_value values log_weights ->
    exists e,
      Empirical.__init__ V torch_equal key_same torch_sort values log_weights
        combine_duplicates = Some e /\
      forall func : V -> R,
        Empirical.expectation e func
        = Some (input_sum func values
                  (Empirical.normalize (input_log_weights values log_weights))).
Proof.
  intros values log_weights c Hne Hlen.
  destruct (stored_sum_of_input values log_weights c Hne Hlen)
    as (e & Hinit & Hwf & _ & _ & _ & Hsum).
  exists e. split; [exact Hinit |]. intros func.
  rewrite expectation_spec by exact Hwf. now rewrite Hsum.
Qed.

(** X18. Expectation is linear, and the expectation of a constant is that
    constant. *)
Theorem empirical_expectation_linear :
  forall (values : list V) (log_weights : option (list R))
         (combine_duplicates : bool),
    values <> [] -> one_weight_per_value values log_weights ->
    exists e,
      Empirical.__init__ V torch_equal key_same torch_sort values log_weights
        combine_duplicates = Some e /\
      (forall (a b : R) (f g : V -> R), exists Ef Eg,
         Empirical.expectation e f = Some Ef /\
         Empirical.expectation e g = Some Eg /\
         Empirical.expectation e (fun y => a * f y + b * g y)
         = Some (a * Ef + b * Eg)) /\
      (forall c : R, Empirical.expectation e (fun _ => c) = Some c).
Proof.
  intros values log_weights c Hne Hlen.
  destruct (init_spec V torch_equal key_same torch_sort torch_sort_ok
              values log_weights c Hne Hlen)
    as (d & e & Hagg & Hinit & _ & Hperm & _ & Hl & Hlv & Hlw & _).
  assert (Hwf : well_formed e) by (split; lia).
  destruct (aggregate_spec V torch_equal key_same torch_equal_spec key_same_spec
              values log_weights c Hne Hlen) as (d' & Hagg' & _ & Hone & _).
  rewrite Hagg in Hagg'. injection Hagg' as <-.
  exists e. split; [exact Hinit |]. split.
  - intros a b f g. do 2 eexists.
    rewrite !expectation_spec by exact Hwf.
    split; [reflexivity |]. split; [reflexivity |]. f_equal.
    unfold weighted_sum.
    generalize (combine (Empirical.values e) (Empirical.weights e)).
    clear. intros l. induction l as [| p l IH]; simpl; [lra |].
    rewrite IH. lra.
  - intros k. rewrite expectation_spec by exact Hwf. f_equal.
    unfold weighted_sum.
    rewrite (Rsum_permutation _ _ (Permutation_map _ Hperm)).
    transitivity (k * Rsum (map snd d)); [| rewrite Hone; lra].
    clear. induction d as [| p d IH]; simpl; [lra |]. rewrite IH. lra.
Qed.

End EmpiricalInputSums.

Lemma empirical_expectation_of_input_witness :
  exists e,
    Empirical.__init__ R Req_bool fresh_key index_sort [1; 1; 2] None true
    = Some e /\
    forall func : R -> R,
      Empirical.expectation e func
      = Some (input_sum func [1; 1; 2]
                (Empirical.normalize (input_log_weights [1; 1; 2] None))).
Proof.
  apply (empirical_expectation_of_input R Req_bool fresh_key index_sort
           index_sort_contract Req_bool_spec fresh_key_spec
           [1; 1; 2] None true).
  - discriminate.
  - reflexivity.
Defined.

Lemma empirical_expectation_linear_witness :
  exists e,
    Empirical.__init__ R Req_bool fresh_key index_sort [1; 1; 2] None true
    = Some e /\
    (forall (a b : R) (f g : R -> R), exists Ef Eg,
       Empirical.expectation e f = Some Ef /\
       Empirical.expectation e g = Some Eg /\
       Empirical.expectation e (fun x => a * f x + b * g x)
       = Some (a * Ef + b * Eg)) /\
    (forall c : R, Empirical.expectation e (fun _ => c) = Some c).
Proof.
  apply (empirical_expectation_linear R Req_bool fresh_key index_sort
           index_sort_contract Req_bool_spec fresh_key_spec
           [1; 1; 2] None true).
  - discriminate.
  - reflexivity.
Defined.

Lemma empirical_weights_nonnegative_witness :
  exists e,
    Empirical.__init__ R Req_bool fresh_key index_sort [1; 1; 2] None true
    = Some e /\
    Forall (fun w => 0 <= w) (Empirical.weights e).
Proof.
  destruct (init_spec R Req_bool fresh_key index_sort
              index_sort_contract [1; 1; 2] None true
              ltac:(discriminate) eq_refl)
    as (d & e & _ & Hinit & _).
  exists e. split; [exact Hinit |].
  exact (empirical_weights_nonnegative R Req_bool fresh_key index_sort
           index_sort_contract [1; 1; 2] None true e Hinit).
Defined.

Lemma empirical_init_rejects_witness :
  Empirical.__init__ R Req_bool fresh_key index_sort [1; 2] (Some [0]) false
  = None.
Proof.
  apply (proj2 (empirical_init_rejects R Req_bool fresh_key index_sort)
           [1; 2] [0] false).
  simpl. lia.
Defined.

Lemma empirical_surplus_log_weights_witness :
  exists e,
    Empirical.__init__ R Req_bool fresh_key index_sort [1; 2]
      (Some [0; 0; 0]) false = Some e /\
    Rsum (Empirical.weights e)
    = Rsum (firstn (List.length [1; 2]) (Empirical.normalize [0; 0; 0])).
Proof.
  apply (empirical_surplus_log_weights R Req_bool fresh_key index_sort
           index_sort_contract Req_bool_spec fresh_key_spec
           [1; 2] [0; 0; 0] false).
  - discriminate.
  - simpl. lia.
Defined.

(** ** Empirical: mean, variance and standard deviations of numbers *)

Lemma input_sum_bounds (a b : R) (vs : list R) : forall ws,
  List.length vs = List.length ws ->
  Forall (fun w => 0 < w) ws ->
  (forall v, In v vs -> a <= v <= b) ->
  a * Rsum ws <= input_sum (fun x => x) vs ws <= b * Rsum ws.
Proof.
  unfold input_sum.
  induction vs as [| v vs IH]; intros [| w ws] Hlen Hpos Hin; simpl in Hlen;
    try lia.
  - simpl. lra.
  - inversion Hpos as [| ? ? Hw Hpos']; subst.
    specialize (IH ws ltac:(lia) Hpos' (fun x Hx => Hin x (or_intror Hx))).
    pose proof (Hin v (or_introl eq_refl)) as Hv.
    simpl. nra.
Qed.

Lemma weighted_sum_nonneg (f : R -> R) (l : list (R * R)) :
  (forall x, 0 <= f x) -> Forall (fun p => 0 < snd p) l ->
  0 <= Rsum (map (fun p => f (fst p) * snd p) l).
Proof.
  intros Hf. induction 1 as [| p l Hp Hall IH]; simpl; [lra |].
  specialize (Hf (fst p)). nra.
Qed.


Lemma Forall_combine_snd {A : Type} (P : R -> Prop) (l1 : list A) :
  forall l2, Forall P l2 -> Forall (fun p => P (snd p)) (combine l1 l2).
Proof.
  induction l1 as [| a l1 IH]; intros [| b l2] H; simpl; try constructor.
  - inversion H; subst. assumption.
  - inversion H; subst. now apply IH.
Qed.

Section EmpiricalNumbers.

Variable torch_equal : R -> R -> bool.
Variable key_same : R -> R -> bool.
Variable torch_sort : list R -> bool -> list R * list nat.
Hypothesis torch_sort_ok : sort_contract torch_sort.
Hypothesis torch_equal_spec : forall a b, torch_equal a b = true <-> a = b.
Hypothesis key_same_spec : forall a b, key_same a b = true -> a = b.

Local Abbreviation __init__ := (Empirical.__init__ R torch_equal key_same torch_sort).

(** X19. The mean lies between any two bounds of the values: if every
    value is in [a, b], so is the mean. *)
Theorem empirical_mean_within_bounds :
  forall (values : list R) (log_weights : option (list R))
         (combine_duplicates : bool) (a b : R),
    values <> [] -> one_weight_per_value values log_weights ->
    (forall v, In v values -> a <= v <= b) ->
    exists e m e1,
      __init__ values log_weights combine_duplicates = Some e /\
      Empirical.mean e = Some (m, e1) /\
      a <= m <= b.
Proof.
  intros values log_weights c a b Hne Hlen Hbounds.
  destruct (stored_sum_of_input R torch_equal key_same torch_sort torch_sort_ok
              torch_equal_spec key_same_spec values log_weights c Hne Hlen)
    as (e & Hinit & Hwf & Hm & _ & _ & Hsum).
  exists e. do 2 eexists. split; [exact Hinit |].
  split; [now apply mean_first_access |].
  rewrite Hsum.
  pose proof (input_log_weights_nonempty R values log_weights Hne Hlen) as Hlw.
  pose proof (normalize_sums_to_1 _ Hlw) as Hone.
  destruct (input_sum_bounds a b values
              (Empirical.normalize (input_log_weights values log_weights)))
    as [Hlo Hhi].
  - rewrite normalize_length. symmetry. exact Hlen.
  - apply normalize_positive.
  - exact Hbounds.
  - rewrite Hone in Hlo, Hhi. lra.
Qed.


(** X21. For tensor values (whose keys the dictionary never takes for the
    same) the standard deviations are square roots of the variances and
    never NaN: stddev_unweighted squared is variance_unweighted, and
    stddev squared is variance. *)
Theorem empirical_stddev_squares :
  forall (values : list R) (log_weights : option (list R))
         (combine_duplicates : bool),
    (forall a b, key_same a b = false) ->
    values <> [] -> one_weight_per_value values log_weights ->
    exists e,
      __init__ values log_weights combine_duplicates = Some e /\
      (exists v sd e1,
         Empirical.variance_unweighted e = Some (v, e1) /\
         Empirical.stddev_unweighted e = Some (Fin sd, e1) /\
         0 <= sd /\ sd * sd = v) /\
      (exists v sd e2,
         Empirical.variance e = Some (v, e2) /\
         Empirical.stddev e = Some (Fin sd, e2) /\
         0 <= sd /\ sd * sd = v).
Proof.
  intros values log_weights c _ Hne Hlen.
  destruct (init_well_formed R torch_equal key_same torch_sort torch_sort_ok
              values log_weights c Hne Hlen)
    as (d & e & _ & Hinit & Hwf & _ & Hl0 & _ & Hm & Hmu & Hv & Hvu).
  pose proof (stored_weights_positive R torch_equal key_same torch_sort
                torch_sort_ok values log_weights c e Hinit) as Hpos.
  exists e. split; [exact Hinit |]. split.
  - set (m := Rsum (Empirical.values e) / INR (Empirical.length e)).
    set (v := Rsum (map (fun x => (x - m) ^ 2) (Empirical.values e))
              / INR (Empirical.length e)).
    assert (Hv0 : 0 <= v).
    { unfold v, Rdiv. apply Rmult_le_pos.
      - generalize (Empirical.values e). intros l.
        induction l as [| x l IH]; [simpl; lra |].
        pose proof (pow2_ge_0 (x - m)) as Hsq. simpl in *. lra.
      - apply Rlt_le, Rinv_0_lt_compat. apply lt_0_INR. lia. }
    exists v, (sqrt v). eexists.
    split; [now apply variance_unweighted_first_access |].
    split.
    + unfold Empirical.stddev_unweighted.
      rewrite variance_unweighted_first_access by assumption.
      fold m v. cbn [esqrt].
      destruct (Rle_dec 0 v); [reflexivity | contradiction].
    + split; [apply sqrt_pos | now apply sqrt_sqrt].
  - set (m := weighted_sum (fun x => x) e).
    set (v := weighted_sum (fun x => (x - m) ^ 2) e).
    assert (Hv0 : 0 <= v).
    { unfold v, weighted_sum. apply (weighted_sum_nonneg (fun x => (x - m) ^ 2)).
      - intros x. apply pow2_ge_0.
      - now apply Forall_combine_snd. }
    exists v, (sqrt v). eexists.
    split; [now apply variance_first_access |].
    split.
    + unfold Empirical.stddev.
      rewrite variance_first_access by assumption.
      fold m v. cbn [esqrt].
      destruct (Rle_dec 0 v); [reflexivity | contradiction].
    + split; [apply sqrt_pos | now apply sqrt_sqrt].
Qed.

End EmpiricalNumbers.

Lemma empirical_mean_within_bounds_witness :
  exists e m e1,
    Empirical.__init__ R Req_bool fresh_key index_sort [1; 1; 2] None true
    = Some e /\
    Empirical.mean e = Some (m, e1) /\
    1 <= m <= 2.
Proof.
  apply (empirical_mean_within_bounds Req_bool fresh_key index_sort
           index_sort_contract Req_bool_spec fresh_key_spec
           [1; 1; 2] None true 1 2).
  - discriminate.
  - reflexivity.
  - intros v [<- | [<- | [<- | []]]]; lra.
Defined.


Lemma empirical_stddev_squares_witness :
  exists e,
    Empirical.__init__ R Req_bool fresh_key index_sort [1; 1; 2] None true
    = Some e /\
    (exists v sd e1,
       Empirical.variance_unweighted e = Some (v, e1) /\
       Empirical.stddev_unweighted e = Some (Fin sd, e1) /\
       0 <= sd /\ sd * sd = v) /\
    (exists v sd e2,
       Empirical.variance e = Some (v, e2) /\
       Empirical.stddev e = Some (Fin sd, e2) /\
       0 <= sd /\ sd * sd = v).
Proof.
  apply (empirical_stddev_squares Req_bool fresh_key index_sort
           index_sort_contract [1; 1; 2] None true).
  - reflexivity.
  - discriminate.
  - reflexivity.
Defined.

(** ** Empirical: shifted log-weights, uniform weights, number of entries *)

Lemma Rsum_exp_add c l :
  Rsum (map exp (map (fun x => x + c) l)) = exp c * Rsum (map exp l).
Proof.
  induction l as [| a l IH]; simpl; [lra |].
  rewrite IH, exp_plus. lra.
Qed.

Lemma normalize_shift (c : R) (log_weights : list R) :
  Empirical.normalize (map (fun x => x + c) log_weights)
  = Empirical.normalize log_weights.
Proof.
  destruct log_weights as [| a l]; [reflexivity |].
  unfold Empirical.normalize. rewrite map_map. apply map_ext. intros x.
  f_equal. unfold logsumexp. rewrite Rsum_exp_add.
  pose proof (Rsum_exp_pos (a :: l) ltac:(discriminate)) as Hpos.
  pose proof (exp_pos c) as Hc.
  rewrite ln_mult by assumption. rewrite ln_exp. lra.
Qed.

Lemma Rsum_repeat (c : R) (n : nat) : Rsum (repeat c n) = INR n * c.
Proof.
  induction n as [| n IH]; [simpl; lra |].
  rewrite S_INR. cbn [repeat Rsum fold_right]. fold (Rsum (repeat c n)).
  rewrite IH. lra.
Qed.

(** The default weights: 1/n each. *)
Lemma normalize_uniform (n : nat) :
  (0 < n)%nat ->
  Empirical.normalize (repeat (- ln (INR n)) n) = repeat (/ INR n) n.
Proof.
  intros Hn. assert (Hpos : 0 < INR n) by now apply lt_0_INR.
  unfold Empirical.normalize, logsumexp.
  rewrite !map_repeat, Rsum_repeat.
  rewrite exp_Ropp, exp_ln by exact Hpos.
  rewrite Rinv_r by lra. rewrite ln_1, Rminus_0_r, exp_Ropp, exp_ln by exact Hpos.
  reflexivity.
Qed.

Lemma input_sum_repeat (c : R) (vs : list R) :
  input_sum (fun x => x) vs (repeat c (List.length vs)) = Rsum vs * c.
Proof.
  unfold input_sum. induction vs as [| v vs IH]; simpl; [lra |].
  rewrite IH. lra.
Qed.

Section EmpiricalKeys.

Variable V : Type.
Variable key_same : V -> V -> bool.

Implicit Types (d : Empirical.dict V) (k v : V) (w x : R).

Lemma iadd_keys d k w :
  map fst (Empirical.iadd V key_same d k w)
  = if existsb (fun p => key_same (fst p) k) d then map fst d
    else map fst d ++ [k].
Proof.
  induction d as [| [k' x'] d IH]; simpl; [reflexivity |].
  destruct (key_same k' k); simpl; [reflexivity |].
  rewrite IH. now destruct (existsb (fun p => key_same (fst p) k) d).
Qed.

(** Without [combine_duplicates], keys as the dictionary tells them apart. *)
Lemma plain_loop_keys vs : forall ws d d',
  Empirical.plain_loop V key_same vs ws d = Some d' ->
  ((forall a b, key_same a b = false) -> map fst d' = map fst d ++ vs) /\
  ((forall a b, key_same a b = true <-> a = b) ->
   NoDup (map fst d) ->
   NoDup (map fst d') /\
   forall k, In k (map fst d') <-> In k (map fst d) \/ In k vs).
Proof.
  induction vs as [| v vs IH]; intros [| w ws] d d'; simpl;
    try discriminate.
  - intros [= <-]. split; [intros _; now rewrite app_nil_r |].
    intros _ Hnd. split; [exact Hnd | tauto].
  - intros [= <-]. split; [intros _; now rewrite app_nil_r |].
    intros _ Hnd. split; [exact Hnd | tauto].
  - intros Hrun. destruct (IH ws _ d' Hrun) as [Hfresh Hsame]. split.
    + intros Hnever. rewrite (Hfresh Hnever), iadd_keys.
      assert (Hex : existsb (fun p => key_same (fst p) v) d = false).
      { clear -Hnever. induction d as [| p d IH]; simpl; [reflexivity |].
        now rewrite Hnever. }
      rewrite Hex, <- app_assoc. reflexivity.
    + intros Heq Hnd.
      assert (Hex : existsb (fun p => key_same (fst p) v) d = true
                    <-> In v (map fst d)).
      { rewrite existsb_exists, in_map_iff. split.
        - intros (p & Hin & He). apply Heq in He. now exists p.
        - intros (p & He & Hin). exists p. split; [exact Hin | now apply Heq]. }
      destruct (existsb (fun p => key_same (fst p) v) d) eqn:Hb.
      * assert (Hin : In v (map fst d)) by now apply Hex.
        destruct Hsame as [Hnd' Hkeys]; [exact Heq | now rewrite iadd_keys, Hb |].
        split; [exact Hnd' |]. intros k. rewrite Hkeys, iadd_keys, Hb.
        split; [tauto |]. intros [H | [<- | H]]; tauto.
      * assert (Hnin : ~ In v (map fst d)).
        { intros Hin. apply Hex in Hin. discriminate. }
        destruct Hsame as [Hnd' Hkeys]; [exact Heq | |].
        { rewrite iadd_keys, Hb. apply NoDup_app; [exact Hnd | repeat constructor; tauto |].
          intros a Ha [<- | []]. tauto. }
        split; [exact Hnd' |]. intros k. rewrite Hkeys, iadd_keys, Hb, in_app_iff.
        simpl. tauto.
Qed.

Variable torch_equal : V -> V -> bool.

(** X23. Without combine_duplicates the dictionary follows its own notion
    of equal keys: for tensors, whose keys are never the same, every value
    keeps its own entry, in input order; for hashable values, whose keys
    are the same when the values are equal, equal values share one entry
    all the same. *)
Theorem empirical_plain_branch_keys :
  forall (values : list V) (log_weights : option (list R)),
    values <> [] -> one_weight_per_value values log_weights ->
    exists d,
      Empirical.aggregate V torch_equal key_same values log_weights false
      = Some d /\
      ((forall a b, key_same a b = false) -> map fst d = values) /\
      ((forall a b, key_same a b = true <-> a = b) ->
       NoDup (map fst d) /\ forall k, In k (map fst d) <-> In k values).
Proof.
  intros values log_weights Hne Hlen.
  destruct (aggregate_total V torch_equal key_same values log_weights false
              Hne Hlen) as (d & Hagg & _).
  exists d. split; [exact Hagg |].
  rewrite aggregate_nonempty in Hagg by exact Hne.
  destruct (plain_loop_keys values _ [] d Hagg) as [Hfresh Hsame].
  split.
  - intros Hnever. now rewrite (Hfresh Hnever).
  - intros Heq. destruct (Hsame Heq (NoDup_nil _)) as [Hnd Hkeys].
    split; [exact Hnd |]. intros k. rewrite Hkeys. simpl. tauto.
Qed.

Variable torch_sort : list R -> bool -> list R * list nat.
Hypothesis torch_sort_ok : sort_contract torch_sort.
Hypothesis torch_equal_spec : forall a b, torch_equal a b = true <-> a = b.
Hypothesis key_same_spec : forall a b, key_same a b = true -> a = b.

(** X24. With combine_duplicates the stored length is the number of
    distinct values: it is at most the number of values, and equal to it
    exactly when no value occurs twice. *)
Theorem empirical_length_counts_distinct :
  forall (values : list V) (log_weights : option (list R)),
    values <> [] -> one_weight_per_value values log_weights ->
    exists e,
      Empirical.__init__ V torch_equal key_same torch_sort values log_weights true
      = Some e /\
      Empirical.__len__ e = List.length (Empirical.values e) /\
      NoDup (Empirical.values e) /\
      (Empirical.__len__ e <= List.length values)%nat /\
      (Empirical.__len__ e = List.length values <-> NoDup values).
Proof.
  intros values log_weights Hne Hlen.
  destruct (init_spec V torch_equal key_same torch_sort torch_sort_ok
              values log_weights true Hne Hlen)
    as (d & e & Hagg & Hinit & _ & Hperm & _ & Hl & Hlv & Hlw & _).
  destruct (aggregate_spec V torch_equal key_same torch_equal_spec key_same_spec
              values log_weights true Hne Hlen) as (d' & Hagg' & _ & _ & Hcomb).
  rewrite Hagg in Hagg'. injection Hagg' as <-.
  destruct (Hcomb eq_refl) as (Hnd & Hkeys & _).
  destruct (stored_values_permutation V d e Hperm) as [Hpv _]; [lia |].
  assert (Hnde : NoDup (Empirical.values e))
    by apply (Permutation_NoDup (Permutation_sym Hpv) Hnd).
  assert (Hincl : incl (Empirical.values e) values).
  { intros k Hk. apply Hkeys. now apply (Permutation_in _ Hpv). }
  assert (Hincl' : incl values (Empirical.values e)).
  { intros k Hk. apply (Permutation_in _ (Permutation_sym Hpv)). now apply Hkeys. }
  exists e. unfold Empirical.__len__. split; [exact Hinit |].
  split; [lia |]. split; [exact Hnde |].
  assert (Hle : (List.length (Empirical.values e) <= List.length values)%nat)
    by now apply NoDup_incl_length.
  split; [lia |]. split.
  - intros Heq.
    apply (Permutation_NoDup (l := Empirical.values e)); [| exact Hnde].
    apply NoDup_Permutation_bis; [exact Hnde | lia | exact Hincl].
  - intros Hndv.
    assert ((List.length values <= List.length (Empirical.values e))%nat)
      by now apply NoDup_incl_length.
    lia.
Qed.

End EmpiricalKeys.

(** X25. With the default log-weights, tensor values and no
    combine_duplicates, every value keeps its entry with weight 1/N, and
    the mean is the unweighted mean, the sum of the values over N. *)
Theorem empirical_uniform_mean :
  forall (torch_equal key_same : R -> R -> bool)
         (torch_sort : list R -> bool -> list R * list nat),
    sort_contract torch_sort ->
    (forall a b, key_same a b = false) ->
    forall values : list R, values <> [] ->
      exists e m e1 e2,
        Empirical.__init__ R torch_equal key_same torch_sort values None false
        = Some e /\
        Empirical.__len__ e = List.length values /\
        Empirical.mean e = Some (m, e1) /\
        Empirical.mean_unweighted e = Some (m, e2) /\
        m = Rsum values / INR (List.length values).
Proof.
  intros torch_equal key_same torch_sort Hsort Hnever values Hne.
  assert (Hlen : one_weight_per_value values None)
    by (unfold one_weight_per_value, input_log_weights; apply repeat_length).
  assert (Hn : (0 < List.length values)%nat)
    by (destruct values; [congruence | simpl; lia]).
  assert (Hinit_eq :
            Empirical.__init__ R torch_equal key_same torch_sort values None false
            = Empirical.__init__ R Req_bool key_same torch_sort values None false)
    by reflexivity.
  assert (Hkey : forall a b, key_same a b = true -> a = b).
  { intros a b H. rewrite Hnever in H. discriminate. }
  destruct (stored_sum_of_input R Req_bool key_same torch_sort Hsort
              Req_bool_spec Hkey values None false Hne Hlen)
    as (e & Hinit & Hwf & Hm & _ & _ & Hsum).
  destruct (init_well_formed R Req_bool key_same torch_sort Hsort values None
              false Hne Hlen)
    as (d & e' & Hagg & Hinit' & _ & Hl & Hl0 & Hpv & _ & Hmu & _).
  rewrite Hinit in Hinit'. injection Hinit' as <-.
  rewrite aggregate_nonempty in Hagg by exact Hne.
  destruct (plain_loop_keys R key_same values _ [] d Hagg) as [Hfresh _].
  specialize (Hfresh Hnever). cbn [map app] in Hfresh.
  assert (Hld : List.length d = List.length values).
  { rewrite <- Hfresh. now rewrite length_map. }
  exists e, (Rsum values / INR (List.length values)). do 2 eexists.
  rewrite Hinit_eq. split; [exact Hinit |].
  unfold Empirical.__len__. split; [lia |]. split; [| split; [| reflexivity]].
  - rewrite mean_first_access by assumption. do 2 f_equal.
    rewrite Hsum. unfold input_log_weights.
    rewrite normalize_uniform by exact Hn. rewrite input_sum_repeat.
    reflexivity.
  - rewrite mean_unweighted_first_access by assumption. do 2 f_equal.
    rewrite (Rsum_permutation _ _ Hpv), Hfresh, Hl, Hld. reflexivity.
Qed.

Lemma empirical_plain_branch_keys_witness :
  exists d,
    Empirical.aggregate R Req_bool fresh_key [1; 1; 2] None false = Some d /\
    ((forall a b : R, fresh_key a b = false) -> map fst d = [1; 1; 2]) /\
    ((forall a b : R, fresh_key a b = true <-> a = b) ->
     NoDup (map fst d) /\ forall k, In k (map fst d) <-> In k [1; 1; 2]).
Proof.
  apply (empirical_plain_branch_keys R fresh_key Req_bool [1; 1; 2] None).
  - discriminate.
  - reflexivity.
Defined.

Lemma empirical_length_counts_distinct_witness :
  exists e,
    Empirical.__init__ R Req_bool fresh_key index_sort [1; 1; 2] None true
    = Some e /\
    Empirical.__len__ e = List.length (Empirical.values e) /\
    NoDup (Empirical.values e) /\
    (Empirical.__len__ e <= List.length [1; 1; 2])%nat /\
    (Empirical.__len__ e = List.length [1; 1; 2] <-> NoDup [1; 1; 2]).
Proof.
  apply (empirical_length_counts_distinct R fresh_key Req_bool index_sort
           index_sort_contract Req_bool_spec fresh_key_spec [1; 1; 2] None).
  - discriminate.
  - reflexivity.
Defined.

Lemma empirical_uniform_mean_witness :
  exists e m e1 e2,
    Empirical.__init__ R Req_bool fresh_key index_sort [1; 1; 2] None false
    = Some e /\
    Empirical.__len__ e = List.length [1; 1; 2] /\
    Empirical.mean e = Some (m, e1) /\
    Empirical.mean_unweighted e = Some (m, e2) /\
    m = Rsum [1; 1; 2] / INR (List.length [1; 1; 2]).
Proof.
  apply (empirical_uniform_mean Req_bool fresh_key index_sort
           index_sort_contract).
  - reflexivity.
  - discriminate.
Defined.

(** ** Empirical: the normalized weights of the constructed object *)

Lemma normalize_member (log_weights : list R) :
  log_weights <> [] ->
  map (fun x => exp (x - logsumexp log_weights)) log_weights
  = map (fun x => exp x / Rsum (map exp log_weights)) log_weights.
Proof.
  intros Hne. apply map_ext. intros x.
  pose proof (Rsum_exp_pos log_weights Hne) as Hpos.
  unfold logsumexp, Rminus. rewrite exp_plus, exp_Ropp, exp_ln by exact Hpos.
  reflexivity.
Qed.

Lemma normalize_zeros_3 : Empirical.normalize [0; 0; 0] = [/ 3; / 3; / 3].
Proof.
  unfold Empirical.normalize, logsumexp. cbn [map Rsum fold_right].
  rewrite exp_0. replace (1 + (1 + (1 + 0))) with 3 by lra.
  unfold Rminus. rewrite Rplus_0_l, exp_Ropp, exp_ln by lra. reflexivity.
Qed.

(** C3. For a non-empty input with one log-weight per value (or the
    uniform default), the weights are exp(log_weights -
    logsumexp(log_weights)), that is exp(x) over the sum of the exp(x),
    and they sum to 1; the entries stored by [__init__] carry exactly
    these weights (the sum of f(value) weight over the stored entries is
    the sum of f(values[i]) exp(log_weights[i] - logsumexp(log_weights))
    over the input, for every f), and the stored weights sum to 1. *)
Theorem empirical_weights_sum_to_1 :
  (forall log_weights : list R,
     log_weights <> [] ->
     map (fun x => exp (x - logsumexp log_weights)) log_weights
     = map (fun x => exp x / Rsum (map exp log_weights)) log_weights /\
     Rsum (map (fun x => exp (x - logsumexp log_weights)) log_weights) = 1) /\
  (forall (V : Type) (torch_equal key_same : V -> V -> bool)
          (torch_sort : list R -> bool -> list R * list nat),
     (forall a b, torch_equal a b = true <-> a = b) ->
     (forall a b, key_same a b = true -> a = b) ->
     sort_contract torch_sort ->
     forall (values : list V) (log_weights : option (list R))
            (combine_duplicates : bool),
       values <> [] -> one_weight_per_value values log_weights ->
       let lw := input_log_weights values log_weights in
       exists e,
         Empirical.__init__ V torch_equal key_same torch_sort values log_weights
           combine_duplicates = Some e /\
         (forall func : V -> R,
            Rsum (map (fun p => func (fst p) * snd p)
                    (combine (Empirical.values e) (Empirical.weights e)))
            = Rsum (map (fun p => func (fst p) * snd p)
                      (combine values
                         (map (fun x => exp (x - logsumexp lw)) lw)))) /\
         Rsum (Empirical.weights e) = 1).
Proof.
  split.
  - intros lw Hne. split; [now apply normalize_member |].
    now apply normalize_sums_to_1.
  - intros V torch_equal key_same torch_sort Heq Hkey Hsort values log_weights c
           Hne Hlen lw.
    destruct (stored_sum_of_input V torch_equal key_same torch_sort Hsort Heq Hkey
                values log_weights c Hne Hlen)
      as (e & Hinit & [Hl Hvw] & _ & _ & _ & Hsum).
    exists e. split; [exact Hinit |]. split; [exact Hsum |].
    pose proof (Hsum (fun _ => 1)) as H1.
    unfold weighted_sum, input_sum in H1.
    assert (Hones : forall (A : Type) (l : list A) (ws : list R),
               List.length l = List.length ws ->
               Rsum (map (fun p => 1 * snd p) (combine l ws)) = Rsum ws).
    { intros A l. induction l as [| a l IH]; intros [| w ws] Hlw; simpl in *;
        try lia; [reflexivity |]. rewrite IH by lia. lra. }
    rewrite !Hones in H1; [| rewrite normalize_length; symmetry; exact Hlen
                           | exact Hvw].
    rewrite H1. apply normalize_sums_to_1.
    now apply (input_log_weights_nonempty V).
Qed.

Lemma empirical_weights_sum_to_1_witness :
  exists e,
    Empirical.__init__ R Req_bool fresh_key index_sort [1; 1; 2]
      (Some [ln 0.25; ln 0.25; ln 0.5]) true = Some e /\
    Rsum (Empirical.weights e) = 1.
Proof.
  destruct (proj2 empirical_weights_sum_to_1 R Req_bool fresh_key index_sort
              Req_bool_spec fresh_key_spec index_sort_contract
              [1; 1; 2] (Some [ln 0.25; ln 0.25; ln 0.5]) true
              ltac:(discriminate) eq_refl) as (e & Hinit & _ & Hsum).
  exists e. split; assumption.
Defined.

(** With three log-weights for two values the object is built and its
    stored weights sum to 2/3. *)
Lemma empirical_weights_sum_surplus_counterexample :
  exists e,
    Empirical.__init__ R Req_bool fresh_key index_sort [1; 2]
      (Some [0; 0; 0]) false = Some e /\
    Rsum (Empirical.weights e) = 2 / 3 /\
    Rsum (Empirical.weights e) <> 1.
Proof.
  destruct (surplus_log_weights_stored R Req_bool fresh_key index_sort
              index_sort_contract Req_bool_spec fresh_key_spec
              [1; 2] [0; 0; 0] false ltac:(discriminate) ltac:(simpl; lia))
    as (e & Hinit & Hsum).
  exists e. split; [exact Hinit |].
  rewrite normalize_zeros_3 in Hsum. cbn [List.length firstn Rsum fold_right] in Hsum.
  rewrite Hsum. split; lra.
Qed.

(** ** TruncatedNormal: the range of what [sample] returns *)

Section SampleRange.

Context {EF : ErrorFunction}.





End SampleRange.

